(** * A shallow embedding of the placeholder engine of go_query_builder (package bqb)

    Sources: [src/utils.go] (dialectReplace, replaceWithScans, scanReplace,
    convertArg, checkParamCounts, makePart, paramToRaw) and
    [src/unnamed/part_000] (Group, And, Or, Valf, intfToExpr, exprsToSql,
    getExprs, exprGroup).

    Go strings are byte sequences; they are modelled as [list ascii].
    The Go standard library functions the code calls ([strings.Index],
    [strings.Replace], [strings.ReplaceAll], [strings.Count],
    [strings.Contains], [strings.Join], [bufio.Scanner]) are modelled
    below from their documented behaviour. *)

From Stdlib Require Import Ascii String.
From Stdlib Require Import List Arith Lia Bool ZArith.
From Stdlib Require DecimalString.
Import ListNotations.
Open Scope list_scope.
Set Warnings "-notation-for-abbreviation,-register-all".

(** [String.length] is not used: [length] is the length of a list. *)
Notation length := List.length.

Definition str := list ascii.

(** String literals of the Go source. *)
Definition lit (s : String.string) : str := String.list_ascii_of_string s.
Arguments lit s%_string.

(** Decimal printing ([fmt] verbs [%d] and [%v] on integers). *)
Definition dec_nat (n : nat) : str := lit (DecimalString.NilZero.string_of_uint (Nat.to_uint n)).
Definition dec_Z (z : Z) : str := lit (DecimalString.NilZero.string_of_int (Z.to_int z)).

Fixpoint str_eqb (a b : str) : bool :=
  match a, b with
  | [], [] => true
  | x :: a', y :: b' => Ascii.eqb x y && str_eqb a' b'
  | _, _ => false
  end.

(** ** Go's [strings] package *)

(** [prefixb p s]: [strings.HasPrefix(s, p)]. *)
Fixpoint prefixb (p s : str) : bool :=
  match p, s with
  | [], _ => true
  | a :: p', b :: s' => Ascii.eqb a b && prefixb p' s'
  | _ :: _, [] => false
  end.

(** [strings.Index(s, sep)] / [bytes.Index]: the first position at which
    [sep] occurs in [s]. *)
Fixpoint index (sep s : str) : option nat :=
  if prefixb sep s then Some 0
  else match s with
       | [] => None
       | _ :: s' => option_map S (index sep s')
       end.

Definition contains (s sub : str) : bool :=
  match index sub s with Some _ => true | None => false end.

(** [strings.Replace(s, old, new, 1)] (every call site has a non-empty [old]). *)
Definition replace_first (s old new : str) : str :=
  match index old s with
  | Some k => firstn k s ++ new ++ skipn (k + length old) s
  | None => s
  end.

(** [strings.ReplaceAll(s, old, new)]: left-to-right, non-overlapping
    (every call site has a non-empty [old]; one byte is consumed per
    replacement at least, so [S (length s)] rounds suffice). *)
Fixpoint replace_all_aux (fuel : nat) (s old new : str) : str :=
  match fuel with
  | 0 => s
  | S f =>
      match index old s with
      | Some k => firstn k s ++ new ++ replace_all_aux f (skipn (k + length old) s) old new
      | None => s
      end
  end.

Definition replace_all (s old new : str) : str :=
  replace_all_aux (S (length s)) s old new.

(** [strings.Count(s, substr)]: number of non-overlapping instances. *)
Fixpoint count_aux (fuel : nat) (s sub : str) : nat :=
  match fuel with
  | 0 => 0
  | S f =>
      match index sub s with
      | Some k => S (count_aux f (skipn (k + length sub) s) sub)
      | None => 0
      end
  end.

Definition count (s sub : str) : nat := count_aux (S (length s)) s sub.

(** [strings.Join(elems, sep)]. *)
Fixpoint join (elems : list str) (sep : str) : str :=
  match elems with
  | [] => []
  | [e] => e
  | e :: es => e ++ sep ++ join es sep
  end.

(** ** Go values

    The arguments of [Valf], [makePart] and [Group] are of type [any]; the
    code dispatches on their dynamic type.  [Any] lists the dynamic types
    the code distinguishes, and [AOther] stands for every other one (a
    struct, a map, [uint], ...), carrying its [%T] name.  A float carries
    its [%T] name and its [%v] text. *)

Definition error := str.

Inductive Any : Type :=
| ANil                                   (* untyped nil *)
| ABool (b : bool)
| AInt (z : Z)                           (* int, int8, ..., int64, uint8, ..., uint64 *)
| AFloat (tname : str) (text : str)      (* float32, float64: %T and %v *)
| AString (s : str)
| AIntPtr (p : option Z)                 (* *int, None = nil pointer *)
| AStrPtr (p : option str)               (* *string *)
| AIntSlice (l : list Z)                 (* []int *)
| AIntPtrSlice (l : list (option Z))     (* []*int *)
| AStringSlice (l : list str)            (* []string *)
| AStrPtrSlice (l : list (option str))   (* []*string *)
| AAnySlice (l : list Any)               (* []any = []interface{} *)
| AExpr (f : str) (v : list Any)         (* Expr{F, V} *)
| AQuery (q : option (str * list Any * option error))
    (* *Query: None is the nil pointer, otherwise the result of v.toSql() *)
| AEmbedder (tname : str) (raw : str)    (* a value implementing Embedder: RawValue() *)
| AValuer (tname : str) (val : Any) (err : option error)
    (* a driver.Valuer: the result of Value() *)
| AJson (tname : str) (out : str) (err : option error)
    (* JsonMap, JsonList or a pointer to one: the result of json.Marshal *)
| AEmbedded (s : str)                    (* Embedded *)
| AOther (tname : str).

(** [fmt]'s [%T]. *)
Definition type_name (a : Any) : str :=
  match a with
  | ANil => lit "<nil>"
  | ABool _ => lit "bool"
  | AInt _ => lit "int"
  | AString _ => lit "string"
  | AIntPtr _ => lit "*int"
  | AStrPtr _ => lit "*string"
  | AIntSlice _ => lit "[]int"
  | AIntPtrSlice _ => lit "[]*int"
  | AStringSlice _ => lit "[]string"
  | AStrPtrSlice _ => lit "[]*string"
  | AAnySlice _ => lit "[]interface {}"
  | AExpr _ _ => lit "bqb.Expr"
  | AQuery _ => lit "*bqb.Query"
  | AFloat t _ | AEmbedder t _ | AValuer t _ _ | AJson t _ _ | AOther t => t
  | AEmbedded _ => lit "bqb.Embedded"
  end.

(** A Go computation that may panic. *)
Inductive Go (A : Type) : Type :=
| Ret (a : A)
| Panic (msg : str).
Arguments Ret {A} a.
Arguments Panic {A} msg.

(** ** Constants *)

Definition paramPh : str := lit "xX_PARAM_Xx".
Definition qm : str := lit "?".
Definition dqm : str := lit "??".

(** The masking sentinels of makePart, Valf and intfToExpr. *)
Definition tempPh : str := lit "XXX___XXX".
Definition tmpQ : str := lit "1xXX1_Y_2XXx2".
Definition tmpS : str := lit "xXxXy__".

(** ** src/utils.go: convertArg, checkParamCounts, makePart *)

Record QueryPart := mkQueryPart {
  Text : str;
  Params : list Any;
  Errs : list error
}.

(** [strings.Join(newPh, ",")] for a slice of [n] elements. *)
Definition phs (sep : str) (n : nat) : str := join (repeat paramPh n) sep.

Definition convertArg (text : str) (arg : Any) : str * list Any * list error :=
  match arg with
  | AEmbedder _ raw => (replace_first text qm raw, [], [])
  | AValuer _ val err =>
      let text := replace_first text qm paramPh in
      match err with
      | Some e => (text, [], [e])
      | None => (text, [val], [])
      end
  | AIntSlice v =>
      (replace_first text qm (phs (lit ",") (length v)), map AInt v, [])
  | AIntPtrSlice v =>
      if 0 <? length v
      then (replace_first text qm (phs (lit ",") (length v)), map AIntPtr v, [])
      else (replace_first text qm paramPh, [ANil], [])
  | AStringSlice v =>
      (replace_first text qm (phs (lit ",") (length v)), map AString v, [])
  | AStrPtrSlice v =>
      if 0 <? length v
      then (replace_first text qm (phs (lit ",") (length v)), map AStrPtr v, [])
      else (replace_first text qm paramPh, [ANil], [])
  | AAnySlice v =>
      (replace_first text qm (phs (lit ",") (length v)), v, [])
  | AQuery None => (replace_first text qm paramPh, [ANil], [])
  | AQuery (Some (sql, params, err)) =>
      let text := replace_first text qm sql in
      match err with
      | Some e => (text, [], [e])
      | None => (text, params, [])
      end
  | AJson _ bytes err =>
      let text := replace_first text qm paramPh in
      match err with
      | Some e => (text, [], [lit "cann jsonify struct: " ++ e])
      | None => (text, [AString bytes], [])
      end
  | AEmbedded s => (replace_first text qm s, [], [])
  | v => (replace_first text qm paramPh, [v], [])
  end.

Definition checkParamCounts (text original : str) (args : list Any) : option error :=
  if 0 <? count text qm then
    Some (lit "extra ? in text: " ++ original ++ lit " (" ++ dec_nat (length args) ++ lit " args)")
  else if count text paramPh <? length args then
    Some (lit "missing ? in text: " ++ original ++ lit " (" ++ dec_nat (length args) ++ lit " args)")
  else None.

(** One round of the loop over [args] in makePart. *)
Definition makePart_step (acc : str * list Any * list error) (arg : Any)
  : str * list Any * list error :=
  let '(text, newArgs, errs) := acc in
  let '(argText, fArgs, argErrs) := convertArg text arg in
  (argText, newArgs ++ fArgs, errs ++ argErrs).

Definition makePart (text : str) (args : list Any) : QueryPart :=
  let originalText := text in
  let text := replace_all text dqm tempPh in
  let '(text, newArgs, errs) := fold_left makePart_step args (text, [], []) in
  let errs := match checkParamCounts text originalText newArgs with
              | Some e => errs ++ [e]
              | None => errs
              end in
  let text := replace_all text tempPh dqm in
  mkQueryPart text newArgs errs.

(** ** src/unnamed/part_000: Expr, Valf, intfToExpr, Group *)

Record Expr := mkExpr { F : str; V : list Any }.

(** One round of the loop over [vals] in Valf. *)
Definition valf_step (acc : str * list Any) (val : Any) : str * list Any :=
  let '(newExpr, params) := acc in
  match val with
  | AIntSlice v =>
      (replace_first newExpr qm (phs (lit ", ") (length v)), params ++ map AInt v)
  | AStringSlice v =>
      (replace_first newExpr qm (phs (lit ", ") (length v)), params ++ map AString v)
  | AAnySlice v =>
      (replace_first newExpr qm (phs (lit ", ") (length v)), params ++ v)
  | v => (replace_first newExpr qm paramPh, params ++ [v])
  end.

Definition Valf (expr : str) (vals : list Any) : Go Expr :=
  let newExpr := replace_all expr dqm tmpQ in
  let '(newExpr, params) := fold_left valf_step vals (newExpr, []) in
  if contains newExpr qm
  then Panic (lit "mismatched paramters for Valf: " ++ expr)
  else Ret (mkExpr (replace_all newExpr tmpQ qm) params).

Definition intfToExpr (intf : Any) : Go Expr :=
  match intf with
  | AString v =>
      let v := replace_all v dqm tmpS in
      if contains v qm
      then Panic (lit "String value without parameters: " ++ v)
      else Ret (mkExpr (replace_all v tmpS qm) [])
  | AExpr f v => Ret (mkExpr f v)
  | v => Panic (lit "Unsupported expression type: " ++ type_name v)
  end.

(** The loop of Group: the texts and the concatenated values, or the first
    panic. *)
Fixpoint group_loop (exprs : list Any) : Go (list str * list Any) :=
  match exprs with
  | [] => Ret ([], [])
  | e :: es =>
      match intfToExpr e with
      | Panic m => Panic m
      | Ret expr =>
          match group_loop es with
          | Panic m => Panic m
          | Ret (newFs, newV) => Ret (F expr :: newFs, V expr ++ newV)
          end
      end
  end.

Definition Group (sep : str) (exprs : list Any) : Go Expr :=
  match group_loop exprs with
  | Panic m => Panic m
  | Ret (newFs, newV) =>
      let '(pre, post) := if 1 <? length exprs then (lit "(", lit ")") else ([], []) in
      Ret (mkExpr (pre ++ join newFs sep ++ post) newV)
  end.

Definition And (exprs : list Any) : Go Expr := Group (lit " AND ") exprs.
Definition Or (exprs : list Any) : Go Expr := Group (lit " OR ") exprs.

(** ** src/unnamed/part_000: exprsToSql, getExprs, exprGroup *)

Definition exprsToSql (exprs : list Expr) : Go (list str * list Any) :=
  fold_left
    (fun acc s =>
       match acc with
       | Panic m => Panic m
       | Ret (qs, newP) =>
           match intfToExpr (AExpr (F s) (V s)) with
           | Panic m => Panic m
           | Ret expr =>
               let newP := if 0 <? length (V expr) then newP ++ V expr else newP in
               Ret (qs ++ [F expr], newP)
           end
       end)
    exprs (Ret ([], [])).

Definition getExprs (exprs : list Any) : Go (list Expr) :=
  fold_left
    (fun acc intf =>
       match acc with
       | Panic m => Panic m
       | Ret newExprs =>
           match intfToExpr intf with
           | Panic m => Panic m
           | Ret e => Ret (newExprs ++ [e])
           end
       end)
    exprs (Ret []).

(** The inner loop of exprGroup, over the expressions of one group. *)
Fixpoint exprGroup_inner (group : list Expr) (n len : nat) (sql : str) (params : list Any)
  : str * list Any :=
  match group with
  | [] => (sql, params)
  | expr :: rest =>
      let sql := sql ++ F expr in
      let params := params ++ V expr in
      let sql := if n + 1 <? len then sql ++ lit " AND " else sql in
      exprGroup_inner rest (S n) len sql params
  end.

(** The outer loop of exprGroup, over the groups. *)
Fixpoint exprGroup_outer (exprs : list (list Expr)) (i len : nat) (sql : str) (params : list Any)
  : str * list Any :=
  match exprs with
  | [] => (sql, params)
  | group :: rest =>
      let sql := sql ++ lit "(" in
      let '(sql, params) := exprGroup_inner group 0 (length group) sql params in
      let sql := if i + 1 =? len then sql ++ lit ") " else sql ++ lit ") OR " in
      exprGroup_outer rest (S i) len sql params
  end.

Definition exprGroup (exprs : list (list Expr)) : str * list Any :=
  if 0 <? length exprs then exprGroup_outer exprs 0 (length exprs) [] [] else ([], []).

(** ** src/utils.go: paramToRaw *)

Definition paramToRaw (param : Any) : str + error :=
  match param with
  | ABool b => inl (if b then lit "true" else lit "false")
  | AFloat _ txt => inl txt
  | AInt z => inl (dec_Z z)
  | AIntPtr None => inl (lit "NULL")
  | AIntPtr (Some z) => inl (dec_Z z)
  | AString p => inl (lit "'" ++ p ++ lit "'")
  | AStrPtr None => inl (lit "NULL")
  | AStrPtr (Some p) => inl (lit "'" ++ p ++ lit "'")
  | ANil => inl (lit "NULL")
  | p => inr (lit "unsupported type for Raw query: " ++ type_name p)
  end.

(** ** bufio.Scanner over a bytes.Buffer, with the split function of scanReplace

    The fields of [Scanner] are those of Go's [bufio.Scanner] that the
    scan of scanReplace depends on: [start] and [end] delimit the unread
    window of [buf], [buflen] is [len(buf)] and [eof] records that the
    reader returned [io.EOF].  The buffer holds bytes of the input: byte
    [i] of [buf] is byte [base + i] of the input, so the window is
    [input[base+start : base+end]] and the reader has handed out the first
    [base + end] bytes.  The default limits apply: [startBufSize] is 4096
    and [MaxScanTokenSize] is 64 KiB. *)

Definition startBufSize : nat := 4096.
Definition maxTokenSize : nat := 65536.
Definition ErrTooLong : error := lit "bufio.Scanner: token too long".

Record Scanner := mkScanner {
  sc_base : nat;
  sc_start : nat;
  sc_end : nat;
  sc_buflen : nat;
  sc_eof : bool
}.

Definition newScanner : Scanner := mkScanner 0 0 0 0 false.

(** The split function given to [scanner.Split] in scanReplace: the
    advance and the token ([None] for a nil token). *)
Definition scanSplit (ph data : str) (atEOF : bool) : nat * option str :=
  if atEOF && (length data =? 0) then (0, None)
  else match index ph data with
       | Some 0 => (length ph, Some (firstn (length ph) data))
       | Some i => (i, Some (firstn i data))
       | None => if atEOF then (length data, Some data) else (0, None)
       end.

Inductive ScanStep :=
| Token (tok : str) (x : Scanner)          (* Scan returns true *)
| Stop (x : Scanner) (err : option error)  (* Scan returns false; Err() *)
| Again (x : Scanner).                     (* one more round of Scan's loop *)

(** One round of the [for] loop of [Scanner.Scan]. *)
Definition scan_round (input ph : str) (x : Scanner) : ScanStep :=
  let '(mkScanner base start end_ buflen eof) := x in
  let data := firstn (end_ - start) (skipn (base + start) input) in
  let r := if (start <? end_) || eof then Some (scanSplit ph data eof) else None in
  match r with
  | Some (adv, Some tok) => Token tok (mkScanner base (start + adv) end_ buflen eof)
  | _ =>
    let start := match r with Some (adv, _) => start + adv | None => start end in
    if eof then Stop (mkScanner base start end_ buflen eof) None
    else
      (* shift the data to the beginning of the buffer *)
      let '(base, start, end_) :=
        if (0 <? start) && ((end_ =? buflen) || (buflen / 2 <? start))
        then (base + start, 0, end_ - start) else (base, start, end_) in
      (* resize a full buffer *)
      if end_ =? buflen then
        if maxTokenSize <=? buflen
        then Stop (mkScanner base start end_ buflen eof) (Some ErrTooLong)
        else
          let newSize := if buflen =? 0 then startBufSize else Nat.min (buflen * 2) maxTokenSize in
          (* read from the bytes.Buffer: as many bytes as fit, or io.EOF *)
          let base := base + start in
          let end_ := end_ - start in
          let n := Nat.min (newSize - end_) (length input - (base + end_)) in
          if n =? 0 then Again (mkScanner base 0 end_ newSize true)
          else Again (mkScanner base 0 (end_ + n) newSize false)
      else
        let n := Nat.min (buflen - end_) (length input - (base + end_)) in
        if n =? 0 then Again (mkScanner base start end_ buflen true)
        else Again (mkScanner base start (end_ + n) buflen false)
  end.

(** [Scanner.Scan]: each round either reads at least one byte, records
    EOF, or returns, so [length input + 2] rounds suffice. *)
Fixpoint scan_loop (fuel : nat) (input ph : str) (x : Scanner) : ScanStep :=
  match fuel with
  | 0 => Again x
  | S f =>
      match scan_round input ph x with
      | Again x' => scan_loop f input ph x'
      | r => r
      end
  end.

Definition Scan (input ph : str) (x : Scanner) : ScanStep :=
  scan_loop (S (S (length input))) input ph x.

(** The replacement callback of a scan ([replaceFn]); it may panic (in
    the RAW dialect it indexes a slice). *)
Definition replaceFn := nat -> Go str.

(** The loop of scanReplace over the tokens: each token but the last
    consumes at least one byte of a non-empty marker. *)
Fixpoint scan_tokens (fuel : nat) (input replace : str) (fn : replaceFn)
    (x : Scanner) (i : nat) (sb : str) : Go (str * option error) :=
  match fuel with
  | 0 => Ret (sb, None)
  | S f =>
      match Scan input replace x with
      | Token txt x' =>
          if str_eqb txt replace then
            match fn i with
            | Ret r => scan_tokens f input replace fn x' (S i) (sb ++ r)
            | Panic m => Panic m
            end
          else scan_tokens f input replace fn x' i (sb ++ txt)
      | Stop _ err => Ret (sb, err)
      | Again _ => Ret (sb, None)
      end
  end.

Definition scanReplace (stmt replace : str) (fn : replaceFn) : Go (str * option error) :=
  scan_tokens (S (S (length stmt))) stmt replace fn newScanner 0 [].

(** ** src/utils.go: replaceWithScans, dialectReplace *)

Record scan := mkScan { pattern : str; sfn : replaceFn }.

(** [errors.Join]: the non-nil errors, in order ([[]] is nil). *)
Definition errs_of (e : option error) : list error :=
  match e with Some e => [e] | None => [] end.

Fixpoint replaceWithScans (inp : str) (ss : list scan) : Go (str * list error) :=
  match ss with
  | [] => Ret (inp, [])
  | s :: ss' =>
      match scanReplace inp (pattern s) (sfn s) with
      | Panic m => Panic m
      | Ret (out, err) =>
          match replaceWithScans out ss' with
          | Panic m => Panic m
          | Ret (res, errs) => Ret (res, errs_of err ++ errs)
          end
      end
  end.

Inductive Dialect := RAW | MYSQL | SQL | PGSQL | OtherDialect (name : str).

(** The loop of the RAW case: the converted parameters, or the first error. *)
Fixpoint raws_of (params : list Any) : list str + error :=
  match params with
  | [] => inl []
  | p :: ps =>
      match paramToRaw p with
      | inr e => inr e
      | inl r => match raws_of ps with inr e => inr e | inl rs => inl (r :: rs) end
      end
  end.

(** [raws[i]]: out of range is a run-time panic. *)
Definition index_raws (raws : list str) (i : nat) : Go str :=
  match nth_error raws i with
  | Some r => Ret r
  | None => Panic (lit "runtime error: index out of range [" ++ dec_nat i ++
                   lit "] with length " ++ dec_nat (length raws))
  end.

Definition dollar (i : nat) : str := lit "$" ++ dec_nat (i + 1).

Definition dialectReplace (dialect : Dialect) (sql : str) (params : list Any)
  : Go (str * list error) :=
  match dialect with
  | RAW =>
      match raws_of params with
      | inr err => Ret ([], [err])
      | inl raws => replaceWithScans sql [mkScan paramPh (index_raws raws)]
      end
  | MYSQL | SQL => replaceWithScans sql [mkScan paramPh (fun _ => Ret qm)]
  | PGSQL =>
      replaceWithScans sql [mkScan dqm (fun _ => Ret qm);
                            mkScan paramPh (fun i => Ret (dollar i))]
  | OtherDialect _ => Ret (sql, [])
  end.

(** ** The contract of the token-scanning replacer (spec 4.3)

    A second definition, following the spec's words: the [i]-th
    non-overlapping left-to-right occurrence of [ph] is replaced by
    [fn i], everything else is kept. *)
Fixpoint replace_occ_aux (fuel : nat) (ph : str) (fn : nat -> str) (i : nat) (s : str) : str :=
  match fuel with
  | 0 => s
  | S f =>
      match index ph s with
      | Some k => firstn k s ++ fn i ++ replace_occ_aux f ph fn (S i) (skipn (k + length ph) s)
      | None => s
      end
  end.

Definition replace_occ (ph : str) (fn : nat -> str) (s : str) : str :=
  replace_occ_aux (S (length s)) ph fn 0 s.

(** Every piece of text the scanner must hold in its buffer fits in
    [MaxScanTokenSize] bytes: a marker-free stretch followed by a marker
    takes at most 65536 bytes together with the marker, and the trailing
    marker-free stretch at most 65535 bytes (the scanner must see EOF
    after it). *)
Fixpoint segments_fit_aux (fuel : nat) (ph s : str) : bool :=
  match fuel with
  | 0 => true
  | S f =>
      match index ph s with
      | Some k => (k + length ph <=? maxTokenSize) && segments_fit_aux f ph (skipn (k + length ph) s)
      | None => length s <? maxTokenSize
      end
  end.

Definition segments_fit (ph s : str) : bool := segments_fit_aux (S (length s)) ph s.

(** A run of [n] letters [a]. *)
Definition letters (n : nat) : str := repeat "a"%char n.

(** ** Bookkeeping for the proofs about the scanner *)

(** The offset in the input of the first unconsumed byte. *)
Definition scan_pos (x : Scanner) : nat := sc_base x + sc_start x.

Definition scan_valid (input : str) (x : Scanner) : Prop :=
  sc_start x <= sc_end x /\ sc_end x <= sc_buflen x /\ sc_buflen x <= maxTokenSize /\
  sc_base x + sc_end x <= length input /\
  (sc_eof x = true -> sc_base x + sc_end x = length input).

Definition scan_measure (input : str) (x : Scanner) : nat :=
  (length input - (sc_base x + sc_end x)) + (if sc_eof x then 0 else 1).

(** Go's scanner sets [eof] only after a read into a buffer that was not
    full, so the window then holds less than the buffer. *)
Definition scan_eof_ok (x : Scanner) : Prop :=
  sc_eof x = true -> sc_end x - sc_start x < sc_buflen x.

Definition next_adv (ph r : str) : nat :=
  match index ph r with Some 0 => length ph | Some k => k | None => length r end.

Definition need (ph r : str) : nat :=
  match index ph r with Some k => k + length ph | None => S (length r) end.

Definition window_has (ph r : str) (w : nat) (atEOF : bool) : bool :=
  match index ph r with
  | Some k => k + length ph <=? w
  | None => atEOF && (0 <? length r)
  end.

(** [replace_occ] from the [i]-th occurrence on. *)
Definition replace_occ_from (ph : str) (fn : nat -> str) (i : nat) (r : str) : str :=
  replace_occ_aux (S (length r)) ph fn i r.


(** [replace_occ_from] for a callback that may panic: the first panic
    of the callback, in occurrence order, is the result. *)
Fixpoint replace_occ_go_aux (fuel : nat) (ph : str) (fn : replaceFn) (i : nat) (s : str) : Go str :=
  match fuel with
  | 0 => Ret s
  | S f =>
      match index ph s with
      | Some k =>
          match fn i with
          | Panic m => Panic m
          | Ret r =>
              match replace_occ_go_aux f ph fn (S i) (skipn (k + length ph) s) with
              | Panic m => Panic m
              | Ret t => Ret (firstn k s ++ r ++ t)
              end
          end
      | None => Ret s
      end
  end.

Definition replace_occ_go (ph : str) (fn : replaceFn) (i : nat) (s : str) : Go str :=
  replace_occ_go_aux (S (length s)) ph fn i s.

(** ** Counting and sentinels, for the proofs about the builders *)

(** [occ p s]: the number of positions of [s] at which [p] starts,
    overlapping occurrences included; for a one-character [p], the number
    of times that character occurs in [s]. *)
Fixpoint occ (p s : str) : nat :=
  (if prefixb p s then 1 else 0) + match s with [] => 0 | _ :: s' => occ p s' end.

(** [n] rounds of [strings.Replace(text, "?", paramPh, 1)]: what the loops
    of makePart and Valf do to the text for [n] scalar arguments. *)
Fixpoint rep_q (n : nat) (s : str) : str :=
  match n with 0 => s | S n' => rep_q n' (replace_first s qm paramPh) end.

(** The [?] left in a template once makePart has masked its [??] pairs:
    the placeholders the template asks arguments for. *)
Definition lone_marks (t : str) : nat := occ qm (replace_all t dqm tempPh).

(** [B] overlaps itself only at shifts of [m] or more: no suffix of [B]
    starting at a position in [1 .. m-1] is a prefix of [B].  With
    [m = length B], [B] has no border. *)
Definition period_free (B : str) (m : nat) : bool :=
  forallb (fun d => negb (prefixb (skipn d B) B)) (seq 1 (m - 1)).

(** The dynamic types that take the default branch both of convertArg
    and of the loop of Valf: one placeholder, one value. *)
Definition scalar (a : Any) : bool :=
  match a with
  | ANil | ABool _ | AInt _ | AFloat _ _ | AString _ | AIntPtr _ | AStrPtr _ | AOther _ => true
  | _ => false
  end.

(** A second definition, following the spec's words on [??] (spec 4.2):
    read left to right, each [??] pair of the template becomes [D] and
    each remaining [?] becomes [Q]. *)
Fixpoint expand_marks (D Q : str) (t : str) : str :=
  match t with
  | [] => []
  | c :: r =>
      if Ascii.eqb c "?"%char then
        match r with
        | c' :: r' => if Ascii.eqb c' "?"%char then D ++ expand_marks D Q r' else Q ++ expand_marks D Q r
        | [] => Q
        end
      else c :: expand_marks D Q r
  end.

(** Neither of [u] and [v] is a prefix of the other: they differ at some
    position both have. *)
Definition disagree (u v : str) : bool := negb (prefixb u v) && negb (prefixb v u).

(** * Proofs *)

(** ** Strings *)

Lemma str_eqb_eq (a b : str) : str_eqb a b = true <-> a = b.
Proof.
  revert b; induction a as [|x a IH]; intros [|y b]; simpl; try (split; congruence).
  rewrite andb_true_iff, IH, Ascii.eqb_eq. split; [intros [-> ->]; reflexivity | intros H; inversion H; auto].
Qed.

Lemma prefixb_true (p s : str) : prefixb p s = true <-> exists t, s = p ++ t.
Proof.
  revert s; induction p as [|a p IH]; intros [|b s]; simpl.
  - split; eauto.
  - split; eauto.
  - split; [discriminate | intros [t Ht]; discriminate].
  - rewrite andb_true_iff, IH, Ascii.eqb_eq. split.
    + intros [-> [t ->]]; eauto.
    + intros [t Ht]; inversion Ht; subst; eauto.
Qed.

Lemma prefixb_app (p t : str) : prefixb p (p ++ t) = true.
Proof. apply prefixb_true; eauto. Qed.

Lemma prefixb_nil (p : str) : p <> [] -> prefixb p [] = false.
Proof. destruct p; simpl; congruence. Qed.

Lemma prefixb_firstn (p s : str) (w : nat) :
  prefixb p (firstn w s) = prefixb p s && (length p <=? w).
Proof.
  revert s w; induction p as [|a p IH]; intros s w.
  - destruct s, w; reflexivity.
  - destruct s as [|b s], w as [|w]; simpl; try reflexivity.
    + now rewrite andb_false_r.
    + rewrite IH, andb_assoc. reflexivity.
Qed.

Lemma prefixb_length (p s : str) : prefixb p s = true -> length p <= length s.
Proof. intros [t ->]%prefixb_true. rewrite length_app. lia. Qed.

Lemma prefixb_firstn_eq (p s : str) : prefixb p s = true -> firstn (length p) s = p.
Proof. intros [t ->]%prefixb_true. rewrite firstn_app, firstn_all, Nat.sub_diag. simpl. apply app_nil_r. Qed.

Lemma index_firstn (p s : str) (w : nat) :
  index p (firstn w s) =
  match index p s with
  | Some k => if k + length p <=? w then Some k else None
  | None => None
  end.
Proof.
  revert w; induction s as [|c s IH]; intros w.
  - rewrite firstn_nil. simpl. destruct (prefixb p []) eqn:E; [|reflexivity].
    assert (p = []) by (destruct p; [reflexivity | discriminate]). subst. reflexivity.
  - destruct w as [|w].
    + simpl firstn. simpl index at 1. destruct p as [|a p]; simpl; [reflexivity|].
      destruct (Ascii.eqb a c && prefixb p s); [reflexivity|].
      destruct (index (a :: p) s); reflexivity.
    + simpl firstn. simpl index.
      replace (prefixb p (c :: firstn w s)) with (prefixb p (firstn (S w) (c :: s))) by reflexivity.
      rewrite prefixb_firstn, IH.
      destruct (prefixb p (c :: s)) eqn:E; simpl.
      * destruct (length p <=? S w) eqn:L; [reflexivity|].
        assert (Hl := prefixb_length _ _ E). simpl in Hl. apply Nat.leb_gt in L.
        destruct (index p s) as [k|] eqn:Ek; simpl; [|reflexivity].
        destruct (k + length p <=? w) eqn:L2; [apply Nat.leb_le in L2; lia | reflexivity].
      * destruct (index p s) as [k|]; simpl; [|reflexivity].
        destruct (k + length p <=? w) eqn:L2; simpl;
          [apply Nat.leb_le in L2; replace (S k + length p <=? S w) with true by (symmetry; apply Nat.leb_le; lia)
          |apply Nat.leb_gt in L2; replace (S k + length p <=? S w) with false by (symmetry; apply Nat.leb_gt; lia)];
          reflexivity.
Qed.

Lemma index_some (p s : str) (k : nat) :
  index p s = Some k ->
  k + length p <= length s /\ prefixb p (skipn k s) = true /\
  (forall j, j < k -> prefixb p (skipn j s) = false).
Proof.
  revert k; induction s as [|c s IH]; intros k H; simpl in H.
  - destruct (prefixb p []) eqn:E; inversion H; subst.
    split; [apply prefixb_length in E; simpl in *; lia|]. split; [assumption | intros; lia].
  - destruct (prefixb p (c :: s)) eqn:E.
    + inversion H; subst. split; [apply prefixb_length in E; simpl in *; lia|].
      split; [assumption | intros; lia].
    + destruct (index p s) as [k'|] eqn:Ek; inversion H; subst.
      destruct (IH k' eq_refl) as (H1 & H2 & H3). simpl. split; [lia|]. split; [assumption|].
      intros [|j] Hj; simpl; [assumption | apply H3; lia].
Qed.

Lemma index_none (p s : str) :
  index p s = None -> forall j, j <= length s -> prefixb p (skipn j s) = false.
Proof.
  induction s as [|c s IH]; intros H j Hj; simpl in H.
  - destruct (prefixb p []) eqn:E; [discriminate|]. destruct j; assumption.
  - destruct (prefixb p (c :: s)) eqn:E; [discriminate|].
    destruct (index p s); [discriminate|].
    destruct j as [|j]; [assumption|]. simpl. apply IH; [reflexivity | simpl in Hj; lia].
Qed.

Lemma index_prefix (p s : str) : prefixb p s = true -> index p s = Some 0.
Proof. destruct s; simpl; intros ->; reflexivity. Qed.

Lemma index_cons_not_prefix (p s : str) (c : ascii) :
  prefixb p (c :: s) = false -> index p (c :: s) = option_map S (index p s).
Proof. simpl. intros ->. reflexivity. Qed.


Lemma scanSplit_spec (ph r : str) (w : nat) (atEOF : bool) :
  ph <> [] -> w <= length r -> (atEOF = true -> w = length r) ->
  scanSplit ph (firstn w r) atEOF =
  if window_has ph r w atEOF then (next_adv ph r, Some (firstn (next_adv ph r) r)) else (0, None).
Proof.
  intros Hph Hw He. unfold scanSplit, window_has, next_adv.
  rewrite length_firstn, index_firstn.
  destruct (index ph r) as [k|] eqn:Ek.
  - destruct (index_some _ _ _ Ek) as (Hk & _ & _).
    assert (Hp : 0 < length ph) by (destruct ph; [congruence | simpl; lia]).
    destruct (k + length ph <=? w) eqn:L.
    + apply Nat.leb_le in L.
      replace (atEOF && (Nat.min w (length r) =? 0)) with false
        by (destruct atEOF; [symmetry; apply Nat.eqb_neq; lia | reflexivity]).
      destruct k as [|k]; rewrite firstn_firstn; f_equal; f_equal; f_equal; lia.
    + apply Nat.leb_gt in L. destruct atEOF.
      * specialize (He eq_refl). lia.
      * reflexivity.
  - destruct atEOF; simpl; [|reflexivity].
    specialize (He eq_refl). subst w.
    rewrite Nat.min_id, firstn_all.
    destruct (length r) eqn:Lr; simpl; [reflexivity|]. reflexivity.
Qed.


Lemma ph_length_pos (ph : str) : ph <> [] -> 0 < length ph.
Proof. destruct ph; [congruence | simpl; lia]. Qed.

Lemma window_has_true (ph r : str) (w : nat) (atEOF : bool) :
  ph <> [] -> window_has ph r w atEOF = true -> (atEOF = true -> w = length r) ->
  1 <= next_adv ph r <= w /\ r <> [].
Proof.
  intros Hph W He. pose proof (ph_length_pos _ Hph).
  unfold window_has, next_adv in *. destruct (index ph r) as [k|] eqn:Ek.
  - apply Nat.leb_le in W. destruct (index_some _ _ _ Ek) as (Hk & _).
    split; [destruct k; lia|]. intros ->; simpl in Hk; lia.
  - apply andb_true_iff in W as [-> L]. apply Nat.ltb_lt in L. specialize (He eq_refl).
    split; [lia|]. intros ->; simpl in L; lia.
Qed.

Lemma window_has_false (ph r : str) (w : nat) :
  window_has ph r w false = false -> w <= length r -> w < need ph r.
Proof.
  unfold window_has, need. destruct (index ph r); intros W L.
  - apply Nat.leb_gt in W. lia.
  - lia.
Qed.

Lemma window_has_eof_false (ph r : str) :
  ph <> [] -> window_has ph r (length r) true = false -> r = [].
Proof.
  intros Hph. unfold window_has. destruct (index ph r) as [k|] eqn:Ek; intros W.
  - destruct (index_some _ _ _ Ek) as (Hk & _). apply Nat.leb_gt in W. lia.
  - simpl in W. apply Nat.ltb_ge in W. destruct r; [reflexivity | simpl in W; lia].
Qed.

Lemma window_has_zero (ph r : str) : ph <> [] -> window_has ph r 0 false = false.
Proof.
  intros Hph. pose proof (ph_length_pos _ Hph). unfold window_has.
  destruct (index ph r); [apply Nat.leb_gt; lia | reflexivity].
Qed.

Lemma buffer_sizes : 0 < startBufSize <= maxTokenSize.
Proof. split; apply Nat.leb_le; vm_compute; reflexivity. Qed.

Ltac nat_cases :=
  repeat match goal with
  | |- context [?a <? ?b] => destruct (Nat.ltb_spec a b)
  | |- context [?a <=? ?b] => destruct (Nat.leb_spec a b)
  | |- context [?a =? ?b] => destruct (Nat.eqb_spec a b)
  end.

Local Arguments Nat.div : simpl never.

Lemma scan_round_spec (input ph : str) (x : Scanner) :
  ph <> [] -> scan_valid input x ->
  need ph (skipn (scan_pos x) input) <= maxTokenSize ->
  let r := skipn (scan_pos x) input in
  (exists x', scan_round input ph x = Token (firstn (next_adv ph r) r) x' /\
              scan_valid input x' /\ scan_pos x' = scan_pos x + next_adv ph r /\
              1 <= next_adv ph r /\ r <> [])
  \/ (exists x', scan_round input ph x = Stop x' None /\ r = [])
  \/ (exists x', scan_round input ph x = Again x' /\ scan_valid input x' /\
                 scan_pos x' = scan_pos x /\ scan_measure input x' < scan_measure input x).
Proof.
  intros Hph Hv Hneed r.
  Local Opaque maxTokenSize startBufSize.
  destruct x as [base start en buflen eof].
  unfold scan_valid, scan_pos, scan_measure in *; simpl in *.
  destruct Hv as (H1 & H2 & H3 & H4 & H5).
  assert (Hr : length r = length input - (base + start)) by apply length_skipn.
  change (skipn (base + start) input) with r in Hneed.
  assert (Hsplit :
    (if (start <? en) || eof
     then Some (scanSplit ph (firstn (en - start) (skipn (base + start) input)) eof) else None)
    = if window_has ph r (en - start) eof
      then Some (next_adv ph r, Some (firstn (next_adv ph r) r))
      else if (start <? en) || eof then Some (0, None) else None).
  { change (skipn (base + start) input) with r.
    destruct ((start <? en) || eof) eqn:G.
    - rewrite scanSplit_spec; [| assumption | lia | intros E; specialize (H5 E); lia].
      destruct (window_has ph r (en - start) eof); reflexivity.
    - apply orb_false_iff in G as [G ->]. apply Nat.ltb_ge in G.
      replace (en - start) with 0 by lia. rewrite window_has_zero by assumption. reflexivity. }
  unfold scan_round. rewrite Hsplit.
  destruct (window_has ph r (en - start) eof) eqn:W.
  - left. destruct (window_has_true _ _ _ _ Hph W) as [[A1 A2] A3];
      [intros E; specialize (H5 E); lia|].
    eexists. split; [reflexivity|]. simpl. repeat split; try lia. all: try assumption.
  - destruct eof.
    + right; left. rewrite orb_true_r. simpl. eexists. split; [reflexivity|].
      apply (window_has_eof_false ph); [assumption|]. specialize (H5 eq_refl).
      replace (length r) with (en - start) by lia. assumption.
    + right; right. rewrite orb_false_r.
      assert (Hw := window_has_false _ _ _ W ltac:(lia)).
      pose proof buffer_sizes.
      destruct (start <? en); simpl; rewrite ?Nat.add_0_r.
      all: destruct ((0 <? start) && ((en =? buflen) || (buflen / 2 <? start))) eqn:Sh;
        [apply andb_true_iff in Sh as [Sh1 Sh2]; apply Nat.ltb_lt in Sh1;
         apply orb_true_iff in Sh2 |
         apply andb_false_iff in Sh; destruct Sh as [Sh|Sh];
         [apply Nat.ltb_ge in Sh | apply orb_false_iff in Sh as [Sh Sh']; apply Nat.eqb_neq in Sh]|..].
      all: try (destruct Sh2 as [Sh2|Sh2]; [apply Nat.eqb_eq in Sh2 | apply Nat.ltb_lt in Sh2]).
      all: nat_cases; try lia.
      all: eexists; split; [reflexivity|]; simpl; repeat split; try lia.
      all: intros; discriminate.
Qed.


Lemma scan_measure_bound (input : str) (x : Scanner) : scan_measure input x <= S (length input).
Proof. unfold scan_measure. destruct (sc_eof x); lia. Qed.

Lemma scan_loop_spec (input ph : str) (fuel : nat) (x : Scanner) :
  ph <> [] -> scan_valid input x ->
  need ph (skipn (scan_pos x) input) <= maxTokenSize ->
  scan_measure input x < fuel ->
  let r := skipn (scan_pos x) input in
  (r <> [] /\ exists x', scan_loop fuel input ph x = Token (firstn (next_adv ph r) r) x' /\
              scan_valid input x' /\ scan_pos x' = scan_pos x + next_adv ph r /\
              1 <= next_adv ph r)
  \/ (r = [] /\ exists x', scan_loop fuel input ph x = Stop x' None).
Proof.
  revert x; induction fuel as [|fuel IH]; intros x Hph Hv Hn Hm r; [lia|].
  simpl. destruct (scan_round_spec input ph x Hph Hv Hn)
    as [(x' & E & V & P & A & NE) | [(x' & E & R) | (x' & E & V & P & M)]];
    rewrite E.
  - left. split; [assumption|]. eauto.
  - right. split; [assumption|]. eauto.
  - fold r. rewrite <- P in Hn. specialize (IH x' Hph V Hn ltac:(lia)).
    cbv zeta in IH. rewrite P in IH. exact IH.
Qed.

Section ReplaceOcc.
Variable ph : str.
Variable fn : nat -> str.
Hypothesis ph_nonempty : ph <> [].

Lemma index_some_shorter (r : str) (k : nat) :
  index ph r = Some k -> length (skipn (k + length ph) r) < length r.
Proof.
  intros Ek. destruct (index_some _ _ _ Ek) as (Hk & _).
  pose proof (ph_length_pos _ ph_nonempty). rewrite length_skipn. lia.
Qed.

Lemma replace_occ_aux_fuel (f1 f2 : nat) (i : nat) (r : str) :
  S (length r) <= f1 -> S (length r) <= f2 ->
  replace_occ_aux f1 ph fn i r = replace_occ_aux f2 ph fn i r.
Proof.
  revert f2 i r; induction f1 as [|f1 IH]; intros [|f2] i r H1 H2; try lia.
  simpl. destruct (index ph r) as [k|] eqn:Ek; [|reflexivity].
  pose proof (index_some_shorter r k Ek).
  f_equal. f_equal. apply IH; lia.
Qed.

Lemma segments_fit_aux_fuel (f1 f2 : nat) (r : str) :
  S (length r) <= f1 -> S (length r) <= f2 ->
  segments_fit_aux f1 ph r = segments_fit_aux f2 ph r.
Proof.
  revert f2 r; induction f1 as [|f1 IH]; intros [|f2] r H1 H2; try lia.
  simpl. destruct (index ph r) as [k|] eqn:Ek; [|reflexivity].
  pose proof (index_some_shorter r k Ek).
  f_equal. apply IH; lia.
Qed.

Local Notation R := (replace_occ_from ph fn).

Lemma R_some (i : nat) (r : str) (k : nat) :
  index ph r = Some k -> R i r = firstn k r ++ fn i ++ R (S i) (skipn (k + length ph) r).
Proof.
  intros Ek. unfold replace_occ_from at 1. simpl. rewrite Ek. f_equal. f_equal.
  pose proof (index_some_shorter r k Ek). unfold replace_occ_from. apply replace_occ_aux_fuel; lia.
Qed.

Lemma R_none (i : nat) (r : str) : index ph r = None -> R i r = r.
Proof. intros Ek. unfold replace_occ_from. simpl. rewrite Ek. reflexivity. Qed.

Lemma fits_some (r : str) (k : nat) :
  index ph r = Some k ->
  segments_fit ph r = (k + length ph <=? maxTokenSize) && segments_fit ph (skipn (k + length ph) r).
Proof.
  intros Ek. unfold segments_fit at 1. simpl. rewrite Ek. f_equal.
  pose proof (index_some_shorter r k Ek). apply segments_fit_aux_fuel; lia.
Qed.

Lemma fits_none (r : str) : index ph r = None -> segments_fit ph r = (length r <? maxTokenSize).
Proof. intros Ek. unfold segments_fit. simpl. rewrite Ek. reflexivity. Qed.

Lemma fits_need (r : str) : segments_fit ph r = true -> need ph r <= maxTokenSize.
Proof.
  unfold need. destruct (index ph r) as [k|] eqn:Ek.
  - rewrite (fits_some r k Ek). intros [L _]%andb_true_iff. apply Nat.leb_le in L. exact L.
  - rewrite (fits_none r Ek). intros L. apply Nat.ltb_lt in L. lia.
Qed.
End ReplaceOcc.


Lemma skipn_skipn' (A : Type) (a b : nat) (l : list A) : skipn a (skipn b l) = skipn (b + a) l.
Proof. rewrite skipn_skipn. f_equal. lia. Qed.

Lemma scan_tokens_spec (input ph : str) (fn : nat -> str) (fuel : nat) :
  ph <> [] ->
  forall x i sb,
  scan_valid input x ->
  segments_fit ph (skipn (scan_pos x) input) = true ->
  length input - scan_pos x < fuel ->
  scan_tokens fuel input ph (fun j => Ret (fn j)) x i sb
  = Ret (sb ++ replace_occ_from ph fn i (skipn (scan_pos x) input), None).
Proof.
  intros Hph. pose proof (ph_length_pos _ Hph) as Hp.
  induction fuel as [|fuel IH]; intros x i sb Hv Hf Hl; [lia|].
  simpl. unfold Scan.
  assert (Hn := fits_need ph Hph _ Hf).
  destruct (scan_loop_spec input ph (S (S (length input))) x Hph Hv Hn
              ltac:(pose proof (scan_measure_bound input x); lia))
    as [(NE & x' & E & V & P & A) | (Er & x' & E)]; rewrite E.
  - set (r := skipn (scan_pos x) input) in *.
    assert (Hpos : scan_pos x <= length input).
    { destruct Hv as (H1 & _ & _ & H4 & _). unfold scan_pos. lia. }
    assert (Hr : length r = length input - scan_pos x) by apply length_skipn.
    assert (Hr' : skipn (scan_pos x') input = skipn (next_adv ph r) r)
      by (rewrite P; unfold r; rewrite skipn_skipn'; reflexivity).
    unfold next_adv in *. destruct (index ph r) as [[|k]|] eqn:Ek.
    + (* the marker *)
      destruct (index_some _ _ _ Ek) as (Hk & Hpre & _). simpl in Hpre.
      rewrite (prefixb_firstn_eq _ _ Hpre).
      replace (str_eqb ph ph) with true by (symmetry; apply str_eqb_eq; reflexivity).
      rewrite (R_some ph fn Hph i r 0 Ek). simpl.
      rewrite (fits_some ph Hph r 0 Ek) in Hf. apply andb_true_iff in Hf as [_ Hf].
      rewrite IH; [| assumption | rewrite Hr'; exact Hf | rewrite P; lia].
      rewrite Hr', app_assoc. reflexivity.
    + (* text before the marker *)
      destruct (index_some _ _ _ Ek) as (Hk & Hpre & Hfirst).
      replace (str_eqb (firstn (S k) r) ph) with false.
      2:{ symmetry. apply not_true_iff_false. intros Heq%str_eqb_eq.
          assert (Hpr : prefixb ph r = true)
            by (rewrite <- Heq; apply prefixb_true; exists (skipn (S k) r); symmetry; apply firstn_skipn).
          specialize (Hfirst 0 ltac:(lia)). simpl in Hfirst. congruence. }
      assert (Ek' : index ph (skipn (S k) r) = Some 0) by (apply index_prefix; exact Hpre).
      rewrite IH; [| assumption | | rewrite P; lia].
      * rewrite Hr', (R_some ph fn Hph i r (S k) Ek), (R_some ph fn Hph i _ 0 Ek').
        rewrite !skipn_skipn'. simpl. rewrite !app_assoc. reflexivity.
      * rewrite Hr'. rewrite (fits_some ph Hph r (S k) Ek) in Hf.
        rewrite (fits_some ph Hph _ 0 Ek'). rewrite skipn_skipn'. simpl.
        apply andb_true_iff in Hf as [Hf1 Hf2]. apply andb_true_iff. split; [|exact Hf2].
        apply Nat.leb_le. apply Nat.leb_le in Hf1. lia.
    + (* the trailing text *)
      rewrite firstn_all.
      replace (str_eqb r ph) with false.
      2:{ symmetry. apply not_true_iff_false. intros Heq%str_eqb_eq.
          assert (Hpr : prefixb ph r = true) by (rewrite Heq; apply prefixb_true; exists []; symmetry; apply app_nil_r).
          rewrite (index_prefix _ _ Hpr) in Ek. discriminate. }
      assert (Hend : skipn (scan_pos x') input = []) by (rewrite Hr', skipn_all; reflexivity).
      rewrite IH; [| assumption | | rewrite P; lia].
      * rewrite Hend, (R_none ph fn i r Ek).
        unfold replace_occ_from. simpl. rewrite prefixb_nil by assumption. rewrite !app_nil_r. reflexivity.
      * rewrite Hend. unfold segments_fit. simpl. rewrite prefixb_nil by assumption.
        pose proof buffer_sizes. apply Nat.ltb_lt. lia.
  - rewrite Er. unfold replace_occ_from. simpl. rewrite prefixb_nil by assumption. rewrite app_nil_r. reflexivity.
Qed.

(** ** The scanner on a stretch that does not fit its buffer *)

Lemma scan_round_eof_ok (input ph : str) (x : Scanner) :
  scan_valid input x -> scan_eof_ok x ->
  (forall tok x', scan_round input ph x = Token tok x' -> scan_eof_ok x') /\
  (forall x', scan_round input ph x = Again x' -> scan_eof_ok x').
Proof.
  intros Hv He.
  destruct x as [base start en buflen eof].
  unfold scan_valid, scan_eof_ok in *; simpl in *.
  destruct Hv as (H1 & H2 & H3 & H4 & H5).
  pose proof buffer_sizes.
  unfold scan_round.
  destruct ((start <? en) || eof);
    [destruct (scanSplit ph _ eof) as [adv [tok|]];
     [split; intros ? ? Ht; [inversion Ht; subst; simpl; intros E; specialize (He E); lia | discriminate]|]|].
  all: destruct eof; [split; intros; discriminate|].
  all: simpl; rewrite ?Nat.add_0_r.
  all: destruct ((0 <? _) && _) eqn:Sh;
        [apply andb_true_iff in Sh as [Sh1 Sh2]; apply Nat.ltb_lt in Sh1;
         apply orb_true_iff in Sh2 |
         apply andb_false_iff in Sh; destruct Sh as [Sh|Sh];
         [apply Nat.ltb_ge in Sh | apply orb_false_iff in Sh as [Sh Sh']; apply Nat.eqb_neq in Sh]|..].
  all: try (destruct Sh2 as [Sh2|Sh2]; [apply Nat.eqb_eq in Sh2 | apply Nat.ltb_lt in Sh2]).
  all: nat_cases; try lia.
  all: split; [intros tok' x' Ht | intros x' Ht]; try discriminate.
  all: inversion Ht; subst; simpl; intros; lia.
Qed.

Lemma scan_round_fail (input ph : str) (x : Scanner) :
  ph <> [] -> scan_valid input x -> scan_eof_ok x ->
  maxTokenSize < need ph (skipn (scan_pos x) input) ->
  (exists x', scan_round input ph x = Stop x' (Some ErrTooLong))
  \/ (exists x', scan_round input ph x = Again x' /\ scan_valid input x' /\ scan_eof_ok x' /\
                 scan_pos x' = scan_pos x /\ scan_measure input x' < scan_measure input x).
Proof.
  intros Hph Hv He Hneed.
  destruct x as [base start en buflen eof].
  unfold scan_valid, scan_eof_ok, scan_pos, scan_measure in *; simpl in *.
  destruct Hv as (H1 & H2 & H3 & H4 & H5).
  set (r := skipn (base + start) input) in *.
  assert (Hr : length r = length input - (base + start)) by apply length_skipn.
  assert (Heof : eof = false).
  { destruct eof; [|reflexivity]. specialize (He eq_refl). specialize (H5 eq_refl).
    exfalso. unfold need in Hneed. destruct (index ph r) as [k|] eqn:Ek.
    - destruct (index_some _ _ _ Ek) as (Hk & _). lia.
    - lia. }
  subst eof.
  assert (W : window_has ph r (en - start) false = false).
  { unfold window_has, need in *. destruct (index ph r); [apply Nat.leb_gt; lia | reflexivity]. }
  assert (Hsplit :
    (if (start <? en) || false
     then Some (scanSplit ph (firstn (en - start) r) false) else None)
    = if (start <? en) then Some (0, None) else None).
  { rewrite orb_false_r.
    destruct (start <? en); [|reflexivity].
    rewrite scanSplit_spec; [| assumption | lia | discriminate]. rewrite W. reflexivity. }
  unfold scan_round. rewrite Hsplit.
  pose proof buffer_sizes.
  destruct (start <? en); simpl; rewrite ?Nat.add_0_r.
  all: destruct ((0 <? start) && ((en =? buflen) || (buflen / 2 <? start))) eqn:Sh;
    [apply andb_true_iff in Sh as [Sh1 Sh2]; apply Nat.ltb_lt in Sh1;
     apply orb_true_iff in Sh2 |
     apply andb_false_iff in Sh; destruct Sh as [Sh|Sh];
     [apply Nat.ltb_ge in Sh | apply orb_false_iff in Sh as [Sh Sh']; apply Nat.eqb_neq in Sh]|..].
  all: try (destruct Sh2 as [Sh2|Sh2]; [apply Nat.eqb_eq in Sh2 | apply Nat.ltb_lt in Sh2]).
  all: nat_cases; try lia.
  all: first [left; eexists; reflexivity
             | right; eexists; split; [reflexivity|]; simpl; repeat split; try lia;
               intros; try discriminate; lia].
Qed.

Lemma scan_loop_fail (input ph : str) (fuel : nat) (x : Scanner) :
  ph <> [] -> scan_valid input x -> scan_eof_ok x ->
  maxTokenSize < need ph (skipn (scan_pos x) input) ->
  scan_measure input x < fuel ->
  exists x', scan_loop fuel input ph x = Stop x' (Some ErrTooLong).
Proof.
  revert x; induction fuel as [|fuel IH]; intros x Hph Hv He Hn Hm; [lia|].
  simpl. destruct (scan_round_fail input ph x Hph Hv He Hn)
    as [(x' & E) | (x' & E & V & E' & P & M)]; rewrite E; [eauto|].
  rewrite <- P in Hn. apply IH; auto. lia.
Qed.

Lemma scan_loop_eof_ok (input ph : str) (fuel : nat) (x : Scanner) (tok : str) (x' : Scanner) :
  ph <> [] -> scan_valid input x -> scan_eof_ok x ->
  need ph (skipn (scan_pos x) input) <= maxTokenSize ->
  scan_loop fuel input ph x = Token tok x' -> scan_eof_ok x'.
Proof.
  revert x; induction fuel as [|fuel IH]; intros x Hph Hv He Hn E; [discriminate|].
  simpl in E. destruct (scan_round_eof_ok input ph x Hv He) as [Ht Ha].
  destruct (scan_round_spec input ph x Hph Hv Hn)
    as [(y & Ey & _) | [(y & Ey & _) | (y & Ey & V & P & _)]]; rewrite Ey in E.
  - inversion E; subst. exact (Ht _ _ Ey).
  - discriminate.
  - rewrite <- P in Hn. exact (IH y Hph V (Ha _ Ey) Hn E).
Qed.

Lemma fits_nil (ph : str) : ph <> [] -> segments_fit ph [] = true.
Proof.
  intros Hph. unfold segments_fit. simpl. rewrite prefixb_nil by assumption.
  pose proof buffer_sizes. apply Nat.ltb_lt. lia.
Qed.

Lemma fits_after_token (ph r : str) :
  ph <> [] -> need ph r <= maxTokenSize -> segments_fit ph r = false ->
  segments_fit ph (skipn (next_adv ph r) r) = false.
Proof.
  intros Hph Hn Hf. unfold need, next_adv in *.
  destruct (index ph r) as [[|k]|] eqn:Ek.
  - rewrite (fits_some ph Hph r 0 Ek) in Hf. simpl in Hf, Hn |- *.
    apply Nat.leb_le in Hn. rewrite Hn in Hf. exact Hf.
  - destruct (index_some _ _ _ Ek) as (Hk & Hpre & _).
    assert (Ek' : index ph (skipn (S k) r) = Some 0) by (apply index_prefix; exact Hpre).
    rewrite (fits_some ph Hph r (S k) Ek) in Hf. apply Nat.leb_le in Hn. rewrite Hn in Hf.
    rewrite (fits_some ph Hph _ 0 Ek'), skipn_skipn'. simpl.
    apply andb_false_iff. right. exact Hf.
  - rewrite (fits_none ph r Ek) in Hf. apply Nat.ltb_ge in Hf. lia.
Qed.

Lemma scan_tokens_fail (input ph : str) (fn : nat -> str) (fuel : nat) :
  ph <> [] ->
  forall x i sb,
  scan_valid input x -> scan_eof_ok x ->
  segments_fit ph (skipn (scan_pos x) input) = false ->
  length input - scan_pos x < fuel ->
  exists t, scan_tokens fuel input ph (fun j => Ret (fn j)) x i sb = Ret (t, Some ErrTooLong).
Proof.
  intros Hph. pose proof (ph_length_pos _ Hph) as Hp.
  induction fuel as [|fuel IH]; intros x i sb Hv He Hf Hl; [lia|].
  simpl. unfold Scan.
  pose proof (scan_measure_bound input x) as Hmb.
  destruct (le_lt_dec (need ph (skipn (scan_pos x) input)) maxTokenSize) as [Hn|Hn].
  - destruct (scan_loop_spec input ph (S (S (length input))) x Hph Hv Hn ltac:(lia))
      as [(NE & x' & E & V & P & A) | (Er & x' & E)]; rewrite E.
    + pose proof (scan_loop_eof_ok _ _ _ _ _ _ Hph Hv He Hn E) as He'.
      set (r := skipn (scan_pos x) input) in *.
      assert (Hpos : scan_pos x <= length input).
      { destruct Hv as (H1 & _ & _ & H4 & _). unfold scan_pos. lia. }
      assert (Hr : length r = length input - scan_pos x) by apply length_skipn.
      assert (Hr' : skipn (scan_pos x') input = skipn (next_adv ph r) r)
        by (rewrite P; unfold r; rewrite skipn_skipn'; reflexivity).
      assert (Hf' : segments_fit ph (skipn (scan_pos x') input) = false)
        by (rewrite Hr'; apply fits_after_token; assumption).
      assert (Hr0 : 0 < length r) by (destruct r; [congruence | simpl; lia]).
      destruct (str_eqb _ _); apply IH; auto; rewrite P; lia.
    + rewrite Er in Hf. rewrite fits_nil in Hf by assumption. discriminate.
  - destruct (scan_loop_fail input ph (S (S (length input))) x Hph Hv He Hn ltac:(lia)) as [x' E].
    rewrite E. eauto.
Qed.

Lemma scanReplace_too_long (s ph : str) (fn : nat -> str) :
  ph <> [] -> segments_fit ph s = false ->
  exists t, scanReplace s ph (fun i => Ret (fn i)) = Ret (t, Some ErrTooLong).
Proof.
  intros Hph Hf. unfold scanReplace.
  apply scan_tokens_fail; [assumption | | | exact Hf | simpl; lia].
  - unfold scan_valid, newScanner; simpl. pose proof buffer_sizes. lia.
  - unfold scan_eof_ok; simpl. discriminate.
Qed.

Section ReplaceOccGo.
Variable ph : str.
Variable fn : replaceFn.
Hypothesis ph_nonempty : ph <> [].

Lemma replace_occ_go_aux_fuel (f1 f2 : nat) (i : nat) (r : str) :
  S (length r) <= f1 -> S (length r) <= f2 ->
  replace_occ_go_aux f1 ph fn i r = replace_occ_go_aux f2 ph fn i r.
Proof.
  revert f2 i r; induction f1 as [|f1 IH]; intros [|f2] i r H1 H2; try lia.
  cbn [replace_occ_go_aux]. destruct (index ph r) as [k|] eqn:Ek; [|reflexivity].
  pose proof (index_some_shorter ph ph_nonempty r k Ek).
  destruct (fn i); [|reflexivity]. rewrite (IH f2); [reflexivity | lia | lia].
Qed.

Lemma RG_some (i : nat) (r : str) (k : nat) :
  index ph r = Some k ->
  replace_occ_go ph fn i r =
  match fn i with
  | Panic m => Panic m
  | Ret x =>
      match replace_occ_go ph fn (S i) (skipn (k + length ph) r) with
      | Panic m => Panic m
      | Ret t => Ret (firstn k r ++ x ++ t)
      end
  end.
Proof.
  intros Ek. unfold replace_occ_go at 1. cbn [replace_occ_go_aux]. rewrite Ek.
  destruct (fn i); [|reflexivity].
  pose proof (index_some_shorter ph ph_nonempty r k Ek).
  unfold replace_occ_go. rewrite (replace_occ_go_aux_fuel (length r) (S (length (skipn (k + length ph) r)))); [reflexivity | lia | lia].
Qed.

Lemma RG_none (i : nat) (r : str) : index ph r = None -> replace_occ_go ph fn i r = Ret r.
Proof. intros Ek. unfold replace_occ_go. cbn [replace_occ_go_aux]. rewrite Ek. reflexivity. Qed.
End ReplaceOccGo.

Lemma scan_tokens_go (input ph : str) (fn : replaceFn) (fuel : nat) :
  ph <> [] ->
  forall x i sb,
  scan_valid input x ->
  segments_fit ph (skipn (scan_pos x) input) = true ->
  length input - scan_pos x < fuel ->
  scan_tokens fuel input ph fn x i sb
  = match replace_occ_go ph fn i (skipn (scan_pos x) input) with
    | Ret t => Ret (sb ++ t, None)
    | Panic m => Panic m
    end.
Proof.
  intros Hph. pose proof (ph_length_pos _ Hph) as Hp.
  induction fuel as [|fuel IH]; intros x i sb Hv Hf Hl; [lia|].
  simpl. unfold Scan.
  assert (Hn := fits_need ph Hph _ Hf).
  destruct (scan_loop_spec input ph (S (S (length input))) x Hph Hv Hn
              ltac:(pose proof (scan_measure_bound input x); lia))
    as [(NE & x' & E & V & P & A) | (Er & x' & E)]; rewrite E.
  - set (r := skipn (scan_pos x) input) in *.
    assert (Hpos : scan_pos x <= length input).
    { destruct Hv as (H1 & _ & _ & H4 & _). unfold scan_pos. lia. }
    assert (Hr : length r = length input - scan_pos x) by apply length_skipn.
    assert (Hr' : skipn (scan_pos x') input = skipn (next_adv ph r) r)
      by (rewrite P; unfold r; rewrite skipn_skipn'; reflexivity).
    unfold next_adv in *. destruct (index ph r) as [[|k]|] eqn:Ek.
    + destruct (index_some _ _ _ Ek) as (Hk & Hpre & _). simpl in Hpre.
      rewrite (prefixb_firstn_eq _ _ Hpre).
      replace (str_eqb ph ph) with true by (symmetry; apply str_eqb_eq; reflexivity).
      rewrite (RG_some ph fn Hph i r 0 Ek).
      rewrite (fits_some ph Hph r 0 Ek) in Hf. apply andb_true_iff in Hf as [_ Hf].
      destruct (fn i) as [y|m]; [|reflexivity].
      rewrite IH; [| assumption | rewrite Hr'; exact Hf | rewrite P; lia].
      rewrite Hr'. destruct (replace_occ_go ph fn (S i) _); [|reflexivity].
      simpl. rewrite app_assoc. reflexivity.
    + destruct (index_some _ _ _ Ek) as (Hk & Hpre & Hfirst).
      replace (str_eqb (firstn (S k) r) ph) with false.
      2:{ symmetry. apply not_true_iff_false. intros Heq%str_eqb_eq.
          assert (Hpr : prefixb ph r = true)
            by (rewrite <- Heq; apply prefixb_true; exists (skipn (S k) r); symmetry; apply firstn_skipn).
          specialize (Hfirst 0 ltac:(lia)). simpl in Hfirst. congruence. }
      assert (Ek' : index ph (skipn (S k) r) = Some 0) by (apply index_prefix; exact Hpre).
      rewrite IH; [| assumption | | rewrite P; lia].
      * rewrite Hr', (RG_some ph fn Hph i r (S k) Ek), (RG_some ph fn Hph i _ 0 Ek').
        rewrite !skipn_skipn'. destruct (fn i); [|reflexivity].
        destruct (replace_occ_go ph fn (S i) _); [|reflexivity].
        simpl. rewrite !app_assoc. reflexivity.
      * rewrite Hr'. rewrite (fits_some ph Hph r (S k) Ek) in Hf.
        rewrite (fits_some ph Hph _ 0 Ek'). rewrite skipn_skipn'. simpl.
        apply andb_true_iff in Hf as [Hf1 Hf2]. apply andb_true_iff. split; [|exact Hf2].
        apply Nat.leb_le. apply Nat.leb_le in Hf1. lia.
    + rewrite firstn_all.
      replace (str_eqb r ph) with false.
      2:{ symmetry. apply not_true_iff_false. intros Heq%str_eqb_eq.
          assert (Hpr : prefixb ph r = true) by (rewrite Heq; apply prefixb_true; exists []; symmetry; apply app_nil_r).
          rewrite (index_prefix _ _ Hpr) in Ek. discriminate. }
      assert (Hend : skipn (scan_pos x') input = []) by (rewrite Hr', skipn_all; reflexivity).
      rewrite IH; [| assumption | | rewrite P; lia].
      * rewrite Hend, (RG_none ph fn i r Ek), (RG_none ph fn i [])
          by (simpl; rewrite prefixb_nil by assumption; reflexivity).
        rewrite app_nil_r. reflexivity.
      * rewrite Hend. unfold segments_fit. simpl. rewrite prefixb_nil by assumption.
        pose proof buffer_sizes. apply Nat.ltb_lt. lia.
  - rewrite Er, RG_none by (simpl; rewrite prefixb_nil by assumption; reflexivity).
    rewrite app_nil_r. reflexivity.
Qed.

Lemma scanReplace_go (s ph : str) (fn : replaceFn) :
  ph <> [] -> segments_fit ph s = true ->
  scanReplace s ph fn
  = match replace_occ_go ph fn 0 s with Ret t => Ret (t, None) | Panic m => Panic m end.
Proof.
  intros Hph Hf. unfold scanReplace.
  rewrite (scan_tokens_go s ph fn); [reflexivity | assumption | | exact Hf | simpl; lia].
  unfold scan_valid; simpl. pose proof buffer_sizes. repeat split; intros; try lia; discriminate.
Qed.

(** ** Counting, masking and unmasking *)

Lemma occ_zero_index (p s : str) : index p s = None <-> occ p s = 0.
Proof.
  induction s as [|c s IH]; simpl.
  - destruct (prefixb p []); simpl; split; congruence.
  - destruct (prefixb p (c :: s)); simpl; [split; congruence|].
    rewrite <- IH. destruct (index p s); simpl; split; congruence.
Qed.

Lemma occ_app_mono (p x y : str) : occ p y <= occ p (x ++ y).
Proof. induction x as [|c x IH]; simpl; lia. Qed.

Lemma occ_prefix (p y : str) : p <> [] -> S (occ p y) <= occ p (p ++ y).
Proof.
  intros Hp. destruct p as [|c p']; [congruence|].
  pose proof (prefixb_app (c :: p') y) as E. simpl in *. rewrite E.
  pose proof (occ_app_mono (c :: p') p' y). lia.
Qed.

Lemma prefixb_skipn (p s : str) : prefixb p s = true -> s = p ++ skipn (length p) s.
Proof. intros [t ->]%prefixb_true. rewrite skipn_app, skipn_all, Nat.sub_diag. reflexivity. Qed.

Lemma index_decomp (p s : str) (k : nat) :
  index p s = Some k -> s = firstn k s ++ p ++ skipn (k + length p) s.
Proof.
  intros E. destruct (index_some _ _ _ E) as (_ & Hpre & _).
  rewrite <- (firstn_skipn k s) at 1. f_equal.
  rewrite (prefixb_skipn _ _ Hpre) at 1. rewrite skipn_skipn'. reflexivity.
Qed.

Lemma count_le_occ (p a b s : str) : p <> [] -> count s (a ++ p ++ b) <= occ p s.
Proof.
  intros Hp. unfold count. generalize (S (length s)) as f. intros f. revert s.
  induction f as [|f IH]; intros s; simpl; [lia|].
  destruct (index (a ++ p ++ b) s) as [k|] eqn:E; [|lia].
  specialize (IH (skipn (k + length (a ++ p ++ b)) s)).
  rewrite (index_decomp _ _ _ E) at 2. rewrite <- !app_assoc.
  pose proof (occ_app_mono p (firstn k s) (a ++ p ++ b ++ skipn (k + length (a ++ p ++ b)) s)).
  pose proof (occ_app_mono p a (p ++ b ++ skipn (k + length (a ++ p ++ b)) s)).
  pose proof (occ_prefix p (b ++ skipn (k + length (a ++ p ++ b)) s) Hp).
  pose proof (occ_app_mono p b (skipn (k + length (a ++ p ++ b)) s)).
  lia.
Qed.

Lemma count_zero_index (s sub : str) : count s sub = 0 <-> index sub s = None.
Proof. unfold count. simpl. destruct (index sub s); split; congruence. Qed.

Lemma occ_app1 (c : ascii) (x y : str) : occ [c] (x ++ y) = occ [c] x + occ [c] y.
Proof. induction x as [|d x IH]; simpl; [reflexivity|]. rewrite IH. lia. Qed.

Lemma prefixb_sep (p x y : str) (c : ascii) :
  ~ In c p -> prefixb p (x ++ c :: y) = prefixb p x.
Proof.
  revert x; induction p as [|a p IH]; intros x Hc; [destruct x; reflexivity|].
  destruct x as [|b x]; simpl.
  - destruct (Ascii.eqb_spec a c); [subst; simpl in Hc; tauto | reflexivity].
  - rewrite IH; [reflexivity | simpl in Hc; tauto].
Qed.

Lemma occ_split (p x y : str) (c : ascii) :
  ~ In c p -> p <> [] -> occ p (x ++ c :: y) = occ p x + occ p y.
Proof.
  intros Hc Hp. induction x as [|b x IH].
  - pose proof (prefixb_sep p [] y c Hc) as E. rewrite prefixb_nil in E by assumption.
    simpl in *. rewrite E, prefixb_nil by assumption. reflexivity.
  - change ((b :: x) ++ c :: y) with (b :: (x ++ c :: y)).
    cbn [occ]. rewrite IH. rewrite <- (prefixb_sep p (b :: x) y c Hc). simpl. lia.
Qed.

Lemma occ_around (p x m y : str) (c1 c2 : ascii) :
  ~ In c1 p -> ~ In c2 p -> p <> [] ->
  occ p (x ++ (c1 :: m ++ [c2]) ++ y) = occ p x + occ p m + occ p y.
Proof.
  intros H1 H2 Hp.
  replace (x ++ (c1 :: m ++ [c2]) ++ y) with (x ++ c1 :: (m ++ c2 :: y))
    by (simpl; rewrite <- app_assoc; reflexivity).
  rewrite (occ_split p x _ c1), (occ_split p m y c2) by assumption. lia.
Qed.

Lemma qm_not_in_PARAM : ~ In "?"%char (lit "PARAM").
Proof. simpl. intuition discriminate. Qed.

Lemma x_not_in_PARAM : ~ In "x"%char (lit "PARAM").
Proof. simpl. intuition discriminate. Qed.

Lemma X_not_in_PARAM : ~ In "X"%char (lit "PARAM").
Proof. simpl. intuition discriminate. Qed.

Lemma paramPh_shape : paramPh = "x"%char :: lit "X_PARAM_X" ++ ["x"%char].
Proof. reflexivity. Qed.

Lemma tempPh_shape : tempPh = "X"%char :: lit "XX___XX" ++ ["X"%char].
Proof. reflexivity. Qed.

Lemma dqm_shape : dqm = "?"%char :: [] ++ ["?"%char].
Proof. reflexivity. Qed.

Lemma occ_qm_app (x y : str) : occ qm (x ++ y) = occ qm x + occ qm y.
Proof. exact (occ_app1 "?"%char x y). Qed.

Lemma replace_first_occ_qm (s : str) :
  occ qm (replace_first s qm paramPh) = occ qm s - 1.
Proof.
  unfold replace_first. destruct (index qm s) as [k|] eqn:E.
  - pose proof (index_decomp _ _ _ E) as D. rewrite D at 3. rewrite !occ_qm_app. change (occ qm paramPh) with 0. change (occ qm qm) with 1. lia.
  - apply occ_zero_index in E. lia.
Qed.

Lemma replace_first_occ_PARAM (s : str) :
  occ (lit "PARAM") (replace_first s qm paramPh)
  = occ (lit "PARAM") s + Nat.min 1 (occ qm s).
Proof.
  unfold replace_first. destruct (index qm s) as [k|] eqn:E.
  - assert (Hq : occ qm s = occ qm (firstn k s) + 1 + occ qm (skipn (k + length qm) s)).
    { rewrite (index_decomp _ _ _ E) at 1. rewrite !occ_qm_app. change (occ qm qm) with 1. lia. }
    rewrite (index_decomp _ _ _ E) at 3.
    rewrite paramPh_shape, occ_around by (exact x_not_in_PARAM || discriminate).
    change qm with ["?"%char]. simpl app.
    rewrite occ_split by (exact qm_not_in_PARAM || discriminate).
    change qm with ["?"%char] in Hq. rewrite Hq. change (occ (lit "PARAM") (lit "X_PARAM_X")) with 1. change (length ["?"%char]) with 1 in *. lia.
  - apply occ_zero_index in E. rewrite E. lia.
Qed.

Lemma rep_q_occ_qm (n : nat) (s : str) : occ qm (rep_q n s) = occ qm s - n.
Proof.
  revert s; induction n as [|n IH]; intros s; simpl; [lia|].
  rewrite IH, replace_first_occ_qm. lia.
Qed.

Lemma rep_q_occ_PARAM (n : nat) (s : str) :
  occ (lit "PARAM") (rep_q n s) = occ (lit "PARAM") s + Nat.min n (occ qm s).
Proof.
  revert s; induction n as [|n IH]; intros s; cbn [rep_q]; [lia|].
  rewrite IH, replace_first_occ_PARAM, replace_first_occ_qm. lia.
Qed.

Lemma replace_all_occ_PARAM (s : str) :
  occ (lit "PARAM") (replace_all s dqm tempPh) = occ (lit "PARAM") s.
Proof.
  unfold replace_all. generalize (S (length s)) as f. intros f. revert s.
  induction f as [|f IH]; intros s; cbn [replace_all_aux]; [reflexivity|].
  destruct (index dqm s) as [k|] eqn:E; [|reflexivity].
  pose proof (index_decomp _ _ _ E) as D.
  remember (replace_all_aux f (skipn (k + length dqm) s) dqm tempPh) as r' eqn:Hr.
  remember (skipn (k + length dqm) s) as rest.
  rewrite D at 2. rewrite tempPh_shape, dqm_shape, !occ_around
    by (exact X_not_in_PARAM || exact qm_not_in_PARAM || discriminate).
  rewrite Hr, IH. reflexivity.
Qed.

Lemma replace_all_occ_qm (s w1 w2 : str) :
  occ qm w1 = occ qm w2 ->
  occ qm (replace_all s dqm w1) = occ qm (replace_all s dqm w2).
Proof.
  intros Hw. unfold replace_all. generalize (S (length s)) as f. intros f. revert s.
  induction f as [|f IH]; intros s; simpl; [reflexivity|].
  destruct (index dqm s) as [k|] eqn:E; [|reflexivity].
  rewrite !occ_qm_app, Hw, IH. reflexivity.
Qed.

Lemma fold_makePart_ints (zs : list Z) (s : str) (ps : list Any) (es : list error) :
  fold_left makePart_step (map AInt zs) (s, ps, es) = (rep_q (length zs) s, ps ++ map AInt zs, es).
Proof.
  revert s ps; induction zs as [|z zs IH]; intros s ps; simpl.
  - rewrite app_nil_r. reflexivity.
  - rewrite app_nil_r, IH, <- app_assoc. reflexivity.
Qed.

Lemma fold_valf_ints (zs : list Z) (s : str) (ps : list Any) :
  fold_left valf_step (map AInt zs) (s, ps) = (rep_q (length zs) s, ps ++ map AInt zs).
Proof.
  revert s ps; induction zs as [|z zs IH]; intros s ps; simpl.
  - rewrite app_nil_r. reflexivity.
  - rewrite IH, <- app_assoc. reflexivity.
Qed.

Lemma replace_first_nonempty (s old new : str) :
  s <> [] -> new <> [] -> replace_first s old new <> [].
Proof.
  intros Hs Hn. unfold replace_first. destruct (index old s); [|exact Hs].
  destruct new; [congruence|]. destruct (firstn n s); discriminate.
Qed.

Lemma replace_all_nonempty (s old new : str) :
  s <> [] -> new <> [] -> replace_all s old new <> [].
Proof.
  intros Hs Hn. unfold replace_all. generalize (S (length s)) as f. intros f.
  destruct f; simpl; [exact Hs|]. destruct (index old s) as [k|]; [|exact Hs].
  destruct new; [congruence|]. destruct (firstn k s); discriminate.
Qed.

Lemma rep_q_nonempty (n : nat) (s : str) : s <> [] -> rep_q n s <> [].
Proof.
  revert s; induction n as [|n IH]; intros s Hs; simpl; [exact Hs|].
  apply IH, replace_first_nonempty; [exact Hs | discriminate].
Qed.

Lemma contains_occ (s sub : str) : contains s sub = false <-> occ sub s = 0.
Proof.
  unfold contains. rewrite <- occ_zero_index. destruct (index sub s); split; congruence.
Qed.

Lemma replace_all_aux_fuel (f1 f2 : nat) (s old new : str) :
  old <> [] -> S (length s) <= f1 -> S (length s) <= f2 ->
  replace_all_aux f1 s old new = replace_all_aux f2 s old new.
Proof.
  intros Hold. revert f2 s; induction f1 as [|f1 IH]; intros [|f2] s H1 H2; try lia.
  cbn [replace_all_aux]. destruct (index old s) as [k|] eqn:E; [|reflexivity].
  destruct (index_some _ _ _ E) as (Hk & _). pose proof (ph_length_pos _ Hold).
  f_equal. f_equal. apply IH; rewrite length_skipn; lia.
Qed.

Lemma replace_all_eq (s old new : str) :
  old <> [] ->
  replace_all s old new =
  match index old s with
  | Some k => firstn k s ++ new ++ replace_all (skipn (k + length old) s) old new
  | None => s
  end.
Proof.
  intros Hold. unfold replace_all at 1. cbn [replace_all_aux].
  destruct (index old s) as [k|] eqn:E; [|reflexivity].
  destruct (index_some _ _ _ E) as (Hk & _). pose proof (ph_length_pos _ Hold).
  f_equal. f_equal. apply replace_all_aux_fuel; [assumption | rewrite length_skipn; lia | lia].
Qed.

Lemma prefixb_app_r (p x y : str) : prefixb p x = true -> prefixb p (x ++ y) = true.
Proof. intros [t ->]%prefixb_true. apply prefixb_true. exists (t ++ y). symmetry; apply app_assoc. Qed.

Lemma prefixb_app_short (p x y : str) :
  prefixb p (x ++ y) = true -> length p <= length x -> prefixb p x = true.
Proof.
  revert x; induction p as [|a p IH]; intros x H L; [reflexivity|].
  destruct x as [|b x]; simpl in *; [lia|].
  apply andb_true_iff in H as [H1 H2]. rewrite H1. apply IH; [exact H2 | lia].
Qed.

Lemma occ_prefix_mono (p x y : str) : occ p x <= occ p (x ++ y).
Proof.
  induction x as [|c x IH]; simpl; [destruct p; simpl; [destruct y; simpl; lia | lia]|].
  destruct (prefixb p (c :: x)) eqn:E.
  - pose proof (prefixb_app_r p (c :: x) y E) as E2. simpl in E2. rewrite E2. lia.
  - destruct (prefixb p (c :: x ++ y)); lia.
Qed.

Lemma index_none_firstn (p s : str) (k : nat) : index p s = None -> index p (firstn k s) = None.
Proof.
  rewrite !occ_zero_index. intros H.
  pose proof (occ_prefix_mono p (firstn k s) (skipn k s)). rewrite firstn_skipn in *. lia.
Qed.

Lemma index_none_skipn (p s : str) (k : nat) : index p s = None -> index p (skipn k s) = None.
Proof.
  rewrite !occ_zero_index. intros H.
  pose proof (occ_app_mono p (firstn k s) (skipn k s)). rewrite firstn_skipn in *. lia.
Qed.

Lemma index_none_ext (p r s : str) : index p s = None -> index (p ++ r) s = None.
Proof.
  rewrite !occ_zero_index. intros H. enough (occ (p ++ r) s <= occ p s) by lia.
  clear H. induction s as [|c s IH]; simpl.
  - destruct (prefixb (p ++ r) []) eqn:E; [|lia].
    apply prefixb_true in E as [t Et]. rewrite <- app_assoc in Et.
    replace (prefixb p []) with true by (symmetry; apply prefixb_true; eauto). lia.
  - destruct (prefixb (p ++ r) (c :: s)) eqn:E; [|lia].
    apply prefixb_true in E as [t Et]. rewrite <- app_assoc in Et.
    replace (prefixb p (c :: s)) with true by (symmetry; apply prefixb_true; eauto). lia.
Qed.

Lemma index_period_free (B x y : str) (m : nat) :
  m <= length B -> period_free B m = true -> index (firstn m B) x = None ->
  index B (x ++ B ++ y) = Some (length x).
Proof.
  intros Hm HB. induction x as [|c x IH]; intros Hx.
  - simpl. apply index_prefix, prefixb_app.
  - assert (Hc : prefixb (firstn m B) (c :: x) = false)
      by (destruct (prefixb (firstn m B) (c :: x)) eqn:E;
          [rewrite (index_prefix _ _ E) in Hx; discriminate | reflexivity]).
    rewrite index_cons_not_prefix in Hx by exact Hc.
    destruct (index (firstn m B) x) eqn:Ex; [discriminate|].
    change ((c :: x) ++ B ++ y) with (c :: (x ++ B ++ y)).
    rewrite index_cons_not_prefix; [rewrite IH by reflexivity; reflexivity|].
    apply not_true_iff_false. intros H.
    change (c :: x ++ B ++ y) with ((c :: x) ++ B ++ y) in H.
    destruct (Nat.le_gt_cases m (length (c :: x))) as [L|L].
    + assert (Hf : prefixb (firstn m B) ((c :: x) ++ B ++ y) = true).
      { apply prefixb_true in H as [t Ht]. apply prefixb_true.
        exists (skipn m B ++ t). rewrite Ht, app_assoc, firstn_skipn. reflexivity. }
      rewrite (prefixb_app_short _ _ _ Hf) in Hc; [discriminate|].
      rewrite length_firstn. lia.
    + apply prefixb_true in H as [t Ht].
      assert (Hs : B ++ y = skipn (length (c :: x)) B ++ t).
      { assert (E1 : skipn (length (c :: x)) ((c :: x) ++ B ++ y) = B ++ y)
          by (rewrite skipn_app, skipn_all, Nat.sub_diag; reflexivity).
        assert (E2 : skipn (length (c :: x)) (B ++ t) = skipn (length (c :: x)) B ++ t)
          by (rewrite skipn_app; replace (length (c :: x) - length B) with 0 by lia; reflexivity).
        rewrite <- E1, <- E2. f_equal. exact Ht. }
      assert (Hp : prefixb (skipn (length (c :: x)) B) B = true).
      { apply (prefixb_app_short _ _ y); [rewrite Hs; apply prefixb_app | rewrite length_skipn; lia]. }
      unfold period_free in HB. rewrite forallb_forall in HB.
      specialize (HB (length (c :: x))). rewrite in_seq, Hp in HB.
      discriminate HB. simpl in L |- *. lia.
Qed.

Lemma replace_all_compose (s A B C : str) (m : nat) :
  A <> [] -> 0 < m <= length B -> period_free B m = true -> index (firstn m B) s = None ->
  replace_all (replace_all s A B) B C = replace_all s A C.
Proof.
  intros HA HBm HB. remember (length s) as n eqn:Hn. revert s Hn.
  induction n as [n IH] using lt_wf_ind. intros s Hn Hs.
  rewrite (replace_all_eq s A B HA), (replace_all_eq s A C HA).
  destruct (index A s) as [k|] eqn:E.
  - destruct (index_some _ _ _ E) as (Hk & _). pose proof (ph_length_pos _ HA).
    assert (HBn : B <> []) by (destruct B; simpl in HBm; [lia | discriminate]).
    rewrite replace_all_eq by exact HBn.
    rewrite (index_period_free B _ _ m) by (lia || exact HB || apply index_none_firstn, Hs).
    rewrite length_firstn. replace (Nat.min k (length s)) with k by lia.
    rewrite firstn_app, firstn_firstn, length_firstn, Nat.min_id.
    replace (k - Nat.min k (length s)) with 0 by lia. rewrite firstn_O, app_nil_r.
    rewrite skipn_app, length_firstn. replace (k + length B - Nat.min k (length s)) with (length B) by lia.
    rewrite skipn_all2 by (rewrite length_firstn; lia). simpl.
    rewrite skipn_app, skipn_all, Nat.sub_diag. simpl.
    rewrite (IH (length (skipn (k + length A) s))); [reflexivity | rewrite length_skipn; lia | reflexivity |].
    apply index_none_skipn, Hs.
  - assert (HBn : B <> []) by (destruct B; simpl in HBm; [lia | discriminate]).
    rewrite replace_all_eq by exact HBn.
    assert (Hs' : index B s = None)
      by (rewrite <- (firstn_skipn m B); apply index_none_ext, Hs).
    rewrite Hs'. reflexivity.
Qed.

Lemma replace_all_self (s A : str) : A <> [] -> replace_all s A A = s.
Proof.
  intros HA. remember (length s) as n eqn:Hn. revert s Hn.
  induction n as [n IH] using lt_wf_ind. intros s Hn.
  rewrite (replace_all_eq s A A HA). destruct (index A s) as [k|] eqn:E; [|reflexivity].
  destruct (index_some _ _ _ E) as (Hk & _). pose proof (ph_length_pos _ HA).
  rewrite (IH (length (skipn (k + length A) s))); [| rewrite length_skipn; lia | reflexivity].
  symmetry. apply index_decomp, E.
Qed.

Lemma tmpQ_period_free : period_free tmpQ (length tmpQ) = true.
Proof. vm_compute. reflexivity. Qed.

Lemma tmpS_period_free : period_free tmpS (length tmpS) = true.
Proof. vm_compute. reflexivity. Qed.

Lemma tempPh_period_free : period_free tempPh 6 = true.
Proof. vm_compute. reflexivity. Qed.

Lemma raws_of_first_error (pre post : list Any) (p : Any) (e : error) :
  Forall (fun q => exists r, paramToRaw q = inl r) pre -> paramToRaw p = inr e ->
  raws_of (pre ++ p :: post) = inr e.
Proof.
  intros Hpre Hp. induction Hpre as [|q pre [r Hq] _ IH]; simpl.
  - rewrite Hp. reflexivity.
  - rewrite Hq, IH. reflexivity.
Qed.

Lemma index_inserted (p x y : str) : p <> [] -> index p (x ++ p ++ y) <> None.
Proof.
  intros Hp E. apply occ_zero_index in E.
  pose proof (occ_app_mono p x (p ++ y)). pose proof (occ_prefix p y Hp). lia.
Qed.

(** ** Lemmas for the further properties *)

Lemma count_aux_fuel (sub : str) : sub <> [] ->
  forall f1 f2 s, S (length s) <= f1 -> S (length s) <= f2 ->
  count_aux f1 s sub = count_aux f2 s sub.
Proof.
  intros Hs. induction f1 as [|f1 IH]; intros [|f2] s H1 H2; try lia.
  cbn [count_aux]. destruct (index sub s) as [k|] eqn:Ek; [|reflexivity].
  pose proof (index_some_shorter sub Hs s k Ek). rewrite (IH f2); [reflexivity | lia | lia].
Qed.

Lemma count_some (s sub : str) (k : nat) :
  sub <> [] -> index sub s = Some k -> count s sub = S (count (skipn (k + length sub) s) sub).
Proof.
  intros Hs Ek. unfold count at 1. cbn [count_aux]. rewrite Ek. f_equal.
  pose proof (index_some_shorter sub Hs s k Ek).
  apply count_aux_fuel; [assumption | lia | lia].
Qed.

Lemma replace_occ_go_agree (ph : str) (fn : replaceFn) (g : nat -> str) :
  ph <> [] ->
  forall n r i, length r < n ->
  (forall j, i <= j < i + count r ph -> fn j = Ret (g j)) ->
  replace_occ_go ph fn i r = Ret (replace_occ_from ph g i r).
Proof.
  intros Hph n. induction n as [|n IH]; intros r i Hl Hfn; [lia|].
  destruct (index ph r) as [k|] eqn:Ek.
  - pose proof (index_some_shorter ph Hph r k Ek).
    rewrite (count_some r ph k Hph Ek) in Hfn.
    rewrite (RG_some ph fn Hph i r k Ek), (R_some ph g Hph i r k Ek).
    rewrite (Hfn i ltac:(lia)). rewrite IH; [reflexivity | lia |].
    intros j Hj. apply Hfn. lia.
  - rewrite (RG_none ph fn i r Ek), (R_none ph g i r Ek). reflexivity.
Qed.

Lemma replace_occ_go_panic (ph : str) (fn : replaceFn) (p : nat) (m : str) :
  ph <> [] ->
  (forall j, j < p -> exists r, fn j = Ret r) -> fn p = Panic m ->
  forall n r i, length r < n -> i <= p < i + count r ph ->
  replace_occ_go ph fn i r = Panic m.
Proof.
  intros Hph Hbefore Hp n. induction n as [|n IH]; intros r i Hl Hi; [lia|].
  destruct (index ph r) as [k|] eqn:Ek.
  - pose proof (index_some_shorter ph Hph r k Ek).
    rewrite (count_some r ph k Hph Ek) in Hi.
    rewrite (RG_some ph fn Hph i r k Ek).
    destruct (Nat.eq_dec i p) as [->|Hne]; [rewrite Hp; reflexivity|].
    destruct (Hbefore i ltac:(lia)) as [x Hx]. rewrite Hx.
    rewrite IH; [reflexivity | lia | lia].
  - apply count_zero_index in Ek. lia.
Qed.

Lemma fits_short (ph : str) : ph <> [] ->
  forall n s, length s < n -> length s < maxTokenSize -> segments_fit ph s = true.
Proof.
  intros Hph n. induction n as [|n IH]; intros s Hn Hs; [lia|].
  destruct (index ph s) as [k|] eqn:Ek.
  - rewrite (fits_some ph Hph s k Ek).
    destruct (index_some _ _ _ Ek) as (Hk & _).
    pose proof (index_some_shorter ph Hph s k Ek).
    apply andb_true_iff. split; [apply Nat.leb_le; lia|].
    apply IH; lia.
  - rewrite (fits_none ph s Ek). apply Nat.ltb_lt. exact Hs.
Qed.

Lemma raws_of_length (ps : list Any) (raws : list str) :
  raws_of ps = inl raws -> length raws = length ps.
Proof.
  revert raws; induction ps as [|p ps IH]; intros raws H; simpl in H.
  - inversion H; reflexivity.
  - destruct (paramToRaw p) as [r|e]; [|discriminate].
    destruct (raws_of ps) as [rs|e]; [|discriminate].
    inversion H; subst. simpl. rewrite (IH rs eq_refl). reflexivity.
Qed.

Lemma paramPh_nonempty : paramPh <> [].
Proof. discriminate. Qed.

Lemma qm_eq : qm = ["?"%char].
Proof. reflexivity. Qed.

Lemma index_char_app (c : ascii) (x y : str) :
  index [c] x = None -> index [c] (x ++ y) = option_map (Nat.add (length x)) (index [c] y).
Proof.
  induction x as [|a x IH]; intros H.
  - simpl. destruct (index [c] y); reflexivity.
  - cbn [index app] in *. destruct (prefixb [c] (a :: x)) eqn:E; [discriminate|].
    replace (prefixb [c] (a :: x ++ y)) with false by (simpl in *; symmetry; exact E).
    destruct (index [c] x) as [k|]; [discriminate|]. rewrite IH by reflexivity.
    destruct (index [c] y); reflexivity.
Qed.

Lemma firstn_app_len (x y : str) (n : nat) : firstn (length x + n) (x ++ y) = x ++ firstn n y.
Proof. induction x as [|a x IH]; simpl; [reflexivity | rewrite IH; reflexivity]. Qed.

Lemma skipn_app_len (x y : str) (n : nat) : skipn (length x + n) (x ++ y) = skipn n y.
Proof. induction x as [|a x IH]; simpl; [reflexivity | exact IH]. Qed.

Lemma firstn_app_exact (x y : str) : firstn (length x) (x ++ y) = x.
Proof. rewrite <- (Nat.add_0_r (length x)), firstn_app_len, app_nil_r. reflexivity. Qed.

Lemma index_none_app_inv (p x y : str) :
  index p (x ++ y) = None -> index p x = None /\ index p y = None.
Proof.
  intros H. split.
  - pose proof (index_none_firstn p _ (length x) H) as H1.
    rewrite <- (Nat.add_0_r (length x)), (firstn_app_len x y 0), app_nil_r in H1. exact H1.
  - pose proof (index_none_skipn p _ (length x) H) as H1.
    rewrite <- (Nat.add_0_r (length x)), skipn_app_len in H1. exact H1.
Qed.

Lemma index_none_app (c : ascii) (x y : str) :
  index [c] x = None -> index [c] y = None -> index [c] (x ++ y) = None.
Proof. intros Hx Hy. rewrite (index_char_app c x y Hx), Hy. reflexivity. Qed.

Lemma index_qm_mark (x y : str) : index qm x = None -> index qm (x ++ qm ++ y) = Some (length x).
Proof.
  intros Hx. apply (index_period_free qm x y 1); [reflexivity | reflexivity | exact Hx].
Qed.

Lemma replace_first_skip (x y : str) :
  index qm x = None -> replace_first (x ++ y) qm paramPh = x ++ replace_first y qm paramPh.
Proof.
  intros Hx. unfold replace_first. rewrite qm_eq in *. rewrite (index_char_app _ x y Hx).
  destruct (index ["?"%char] y) as [k|]; [|reflexivity]. cbn [option_map].
  rewrite firstn_app_len, <- Nat.add_assoc, skipn_app_len, <- app_assoc. reflexivity.
Qed.

Lemma rep_q_skip (n : nat) (x y : str) : index qm x = None -> rep_q n (x ++ y) = x ++ rep_q n y.
Proof.
  revert y; induction n as [|n IH]; intros y Hx; [reflexivity|].
  cbn [rep_q]. rewrite replace_first_skip by exact Hx. apply IH, Hx.
Qed.

Lemma index_qm_paramPh : index qm paramPh = None.
Proof. reflexivity. Qed.

Lemma rep_q_mark (n : nat) (x y : str) :
  index qm x = None -> rep_q (S n) (x ++ qm ++ y) = x ++ paramPh ++ rep_q n y.
Proof.
  intros Hx. cbn [rep_q]. unfold replace_first at 1. rewrite (index_qm_mark x y Hx).
  rewrite firstn_app_exact, skipn_app_len.
  change (skipn (length qm) (qm ++ y)) with y.
  rewrite app_assoc, rep_q_skip, <- app_assoc; [reflexivity|].
  rewrite qm_eq in *. apply index_none_app; [exact Hx | reflexivity].
Qed.

Lemma qm_decomp (t : str) (n : nat) :
  occ qm t = S n -> exists x y, t = x ++ qm ++ y /\ index qm x = None /\ occ qm y = n.
Proof.
  intros Ho. destruct (index qm t) as [k|] eqn:Ek.
  2:{ apply occ_zero_index in Ek. lia. }
  pose proof (index_decomp _ _ _ Ek) as Ht.
  exists (firstn k t), (skipn (k + length qm) t). split; [exact Ht|]. split.
  - rewrite index_firstn, Ek. replace (k + length qm <=? k) with false by (symmetry; apply Nat.leb_gt; cbn; lia).
    reflexivity.
  - rewrite Ht in Ho. rewrite !occ_qm_app in Ho.
    assert (H0 : occ qm (firstn k t) = 0).
    { apply occ_zero_index. rewrite index_firstn, Ek.
      replace (k + length qm <=? k) with false by (symmetry; apply Nat.leb_gt; cbn; lia). reflexivity. }
    change (occ qm qm) with 1 in Ho. lia.
Qed.

Lemma paramPh_period_free : period_free paramPh 10 = true.
Proof. vm_compute. reflexivity. Qed.

Lemma index_paramPh_mark (x y : str) :
  index (firstn 10 paramPh) x = None -> index paramPh (x ++ paramPh ++ y) = Some (length x).
Proof.
  intros Hx. apply (index_period_free paramPh x y 10); [cbn; lia | exact paramPh_period_free | exact Hx].
Qed.

Lemma index_paramPh_free (t : str) : index (firstn 10 paramPh) t = None -> index paramPh t = None.
Proof. intros H. exact (index_none_ext (firstn 10 paramPh) (skipn 10 paramPh) t H). Qed.

Lemma not_in_tempPh_x : ~ In "x"%char tempPh.
Proof. simpl. intuition discriminate. Qed.

Lemma not_in_tempPh_q : ~ In "?"%char tempPh.
Proof. simpl. intuition discriminate. Qed.

(** What the builders' text becomes for [n] scalar arguments: the [n]
    marks of the template turned into [paramPh]. *)
Lemma rep_q_marks (n : nat) : forall (t : str) (i : nat) (g : nat -> str),
  occ qm t = n -> index (firstn 10 paramPh) t = None ->
  replace_occ_from paramPh g i (rep_q n t) = replace_occ_from qm g i t /\
  count (rep_q n t) paramPh = n /\
  length (rep_q n t) = length t + 10 * n /\
  occ tempPh (rep_q n t) = occ tempPh t /\
  occ qm (rep_q n t) = 0.
Proof.
  induction n as [|n IH]; intros t i g Ho Hp.
  - cbn [rep_q]. pose proof (index_paramPh_free t Hp) as HP.
    assert (Hq : index qm t = None) by (apply occ_zero_index; exact Ho).
    rewrite (R_none paramPh g i t HP), (R_none qm g i t Hq).
    repeat split; [apply count_zero_index; exact HP | lia | exact Ho].
  - destruct (qm_decomp t n Ho) as (x & y & -> & Hx & Hy).
    destruct (index_none_app_inv _ _ _ Hp) as [Hpx Hpy].
    destruct (index_none_app_inv _ _ _ Hpy) as [_ Hpy'].
    destruct (IH y (S i) g Hy Hpy') as (IR & IC & IL & IT & IQ).
    rewrite (rep_q_mark n x y Hx).
    pose proof (index_paramPh_mark x (rep_q n y) Hpx) as EP.
    repeat split.
    + rewrite (R_some paramPh g paramPh_nonempty i _ _ EP).
      rewrite (R_some qm g ltac:(discriminate) i _ _ (index_qm_mark x y Hx)).
      rewrite firstn_app_exact, skipn_app_len, firstn_app_exact,
        skipn_app_len.
      change (skipn (length paramPh) (paramPh ++ rep_q n y)) with (rep_q n y).
      change (skipn (length qm) (qm ++ y)) with y.
      rewrite IR. reflexivity.
    + rewrite (count_some _ paramPh _ paramPh_nonempty EP), skipn_app_len.
      change (skipn (length paramPh) (paramPh ++ rep_q n y)) with (rep_q n y). rewrite IC. reflexivity.
    + rewrite !length_app, IL. change (length qm) with 1. change (length paramPh) with 11. lia.
    + rewrite paramPh_shape, (occ_around tempPh x _ _ _ _ not_in_tempPh_x not_in_tempPh_x ltac:(discriminate)).
      change (occ tempPh (lit "X_PARAM_X")) with 0.
      rewrite qm_eq. cbn [app]. rewrite (occ_split tempPh x y _ not_in_tempPh_q ltac:(discriminate)).
      rewrite IT. lia.
    + rewrite !occ_qm_app, IQ. rewrite occ_zero_index in Hx. rewrite Hx. reflexivity.
Qed.

Lemma replace_occ_marks_id (n : nat) : forall (t : str) (i : nat),
  length t < n -> replace_occ_from qm (fun _ => qm) i t = t.
Proof.
  induction n as [|n IH]; intros t i Hl; [lia|].
  destruct (index qm t) as [k|] eqn:Ek.
  - rewrite (R_some qm _ ltac:(discriminate) i t k Ek).
    pose proof (index_some_shorter qm ltac:(discriminate) t k Ek).
    rewrite IH by lia. symmetry. exact (index_decomp _ _ _ Ek).
  - exact (R_none qm _ i t Ek).
Qed.

Lemma count_qm (n : nat) : forall t, length t < n -> count t qm = occ qm t.
Proof.
  induction n as [|n IH]; intros t Hl; [lia|].
  destruct (index qm t) as [k|] eqn:Ek.
  - rewrite (count_some t qm k ltac:(discriminate) Ek).
    pose proof (index_some_shorter qm ltac:(discriminate) t k Ek).
    rewrite IH by lia.
    rewrite (index_decomp _ _ _ Ek) at 2. rewrite !occ_qm_app.
    assert (H0 : occ qm (firstn k t) = 0).
    { apply occ_zero_index. rewrite index_firstn, Ek.
      replace (k + length qm <=? k) with false by (symmetry; apply Nat.leb_gt; cbn; lia). reflexivity. }
    rewrite H0. reflexivity.
  - rewrite (proj2 (count_zero_index t qm) Ek). symmetry. apply occ_zero_index, Ek.
Qed.

Lemma contains_index (s sub : str) : contains s sub = false <-> index sub s = None.
Proof. unfold contains. destruct (index sub s); split; congruence. Qed.

Lemma makePart_marks (t : str) (zs : list Z) :
  contains t dqm = false -> contains t tempPh = false -> contains t (firstn 10 paramPh) = false ->
  occ qm t = length zs ->
  makePart t (map AInt zs) = mkQueryPart (rep_q (length zs) t) (map AInt zs) [].
Proof.
  intros Hd Ht Hp Ho. apply contains_index in Hd, Ht, Hp.
  destruct (rep_q_marks (length zs) t 0 (fun _ => []) Ho Hp) as (_ & HC & _ & HT & HQ).
  unfold makePart. rewrite (replace_all_eq t dqm tempPh ltac:(discriminate)), Hd.
  rewrite fold_makePart_ints. unfold checkParamCounts.
  rewrite count_qm with (n := S (length (rep_q (length zs) t))) by lia.
  rewrite HQ, HC. cbn [app]. rewrite length_map, !Nat.ltb_irrefl.
  rewrite (replace_all_eq _ tempPh dqm ltac:(discriminate)).
  replace (index tempPh (rep_q (length zs) t)) with (@None nat).
  2:{ symmetry. apply occ_zero_index. rewrite HT. apply occ_zero_index, Ht. }
  reflexivity.
Qed.

Lemma convertArg_text_independent (t1 t2 : str) (a : Any) :
  snd (fst (convertArg t1 a)) = snd (fst (convertArg t2 a)) /\
  snd (convertArg t1 a) = snd (convertArg t2 a).
Proof.
  destruct a; cbn [convertArg];
    repeat match goal with
           | |- context [match ?x with _ => _ end] => destruct x
           end; split; reflexivity.
Qed.

Lemma makePart_step_eq (t : str) (ps : list Any) (es : list error) (a : Any) :
  makePart_step (t, ps, es) a
  = (fst (fst (convertArg t a)), ps ++ snd (fst (convertArg t a)), es ++ snd (convertArg t a)).
Proof. unfold makePart_step. destruct (convertArg t a) as [[x f] e]. reflexivity. Qed.

Lemma fold_makePart_text_independent (args : list Any) : forall t1 t2 ps es,
  snd (fst (fold_left makePart_step args (t1, ps, es)))
  = snd (fst (fold_left makePart_step args (t2, ps, es))) /\
  snd (fold_left makePart_step args (t1, ps, es))
  = snd (fold_left makePart_step args (t2, ps, es)).
Proof.
  induction args as [|a args IH]; intros t1 t2 ps es; [split; reflexivity|].
  cbn [fold_left]. rewrite !makePart_step_eq.
  destruct (convertArg_text_independent t1 t2 a) as [-> ->]. apply IH.
Qed.

Lemma fold_valf_text_independent (vals : list Any) : forall s1 s2 ps,
  snd (fold_left valf_step vals (s1, ps)) = snd (fold_left valf_step vals (s2, ps)).
Proof.
  induction vals as [|v vals IH]; intros s1 s2 ps; [reflexivity|].
  cbn [fold_left]. unfold valf_step at 2 4.
  destruct v; apply IH.
Qed.

Lemma group_loop_app (pre : list Any) (x : Any) (post : list Any) (m : str) :
  Forall (fun y => exists e, intfToExpr y = Ret e) pre -> intfToExpr x = Panic m ->
  group_loop (pre ++ x :: post) = Panic m.
Proof.
  intros Hpre Hx. induction Hpre as [|y pre [e He] _ IH]; cbn [app group_loop].
  - rewrite Hx. reflexivity.
  - rewrite He, IH. reflexivity.
Qed.

Lemma group_loop_exprs (es : list Expr) :
  group_loop (map (fun e => AExpr (F e) (V e)) es) = Ret (map F es, flat_map V es).
Proof.
  induction es as [|[f v] es IH]; [reflexivity|].
  cbn [map group_loop intfToExpr]. rewrite IH. reflexivity.
Qed.

Lemma join_cons2 (x y : str) (l : list str) (sep : str) :
  join (x :: y :: l) sep = x ++ sep ++ join (y :: l) sep.
Proof. reflexivity. Qed.

Lemma exprGroup_inner_eq (group : list Expr) (n len : nat) (sql : str) (params : list Any) :
  n + length group = len ->
  exprGroup_inner group n len sql params
  = (sql ++ join (map F group) (lit " AND "), params ++ flat_map V group).
Proof.
  revert n sql params; induction group as [|e [|e' rest] IH]; intros n sql params Hl;
    cbn [exprGroup_inner length] in *.
  - cbn [map join flat_map]. rewrite !app_nil_r. reflexivity.
  - replace (n + 1 <? len) with false by (symmetry; apply Nat.ltb_ge; lia).
    cbn [map join flat_map]. rewrite !app_nil_r. reflexivity.
  - replace (n + 1 <? len) with true by (symmetry; apply Nat.ltb_lt; lia).
    rewrite IH by (cbn [length]; lia). cbn [map flat_map]. rewrite (join_cons2 (F e)).
    rewrite !app_assoc. reflexivity.
Qed.

Lemma exprGroup_outer_cons (g : list Expr) (rest : list (list Expr)) (i len : nat) (sql : str) (params : list Any) :
  exprGroup_outer (g :: rest) i len sql params
  = let '(sql, params) := exprGroup_inner g 0 (length g) (sql ++ lit "(") params in
    exprGroup_outer rest (S i) len (if i + 1 =? len then sql ++ lit ") " else sql ++ lit ") OR ") params.
Proof. reflexivity. Qed.

Lemma exprGroup_outer_eq (exprs : list (list Expr)) (i len : nat) (sql : str) (params : list Any) :
  exprs <> [] -> i + length exprs = len ->
  exprGroup_outer exprs i len sql params
  = (sql ++ join (map (fun g => lit "(" ++ join (map F g) (lit " AND ") ++ lit ")") exprs) (lit " OR ")
         ++ lit " ",
     params ++ flat_map (flat_map V) exprs).
Proof.
  revert i sql params; induction exprs as [|g [|g' rest] IH]; intros i sql params Hne Hl;
    [congruence| |]; rewrite exprGroup_outer_cons, exprGroup_inner_eq by reflexivity.
  - simpl in Hl. replace (i + 1 =? len) with true by (symmetry; apply Nat.eqb_eq; lia).
    cbn [exprGroup_outer map join flat_map]. rewrite !app_nil_r, <- !app_assoc. reflexivity.
  - simpl in Hl. replace (i + 1 =? len) with false by (symmetry; apply Nat.eqb_neq; lia).
    rewrite IH by (discriminate || (simpl; lia)).
    cbn [map join flat_map]. rewrite <- !app_assoc. reflexivity.
Qed.

Lemma exprsToSql_ret (exprs : list Expr) :
  exprsToSql exprs = Ret (map F exprs, flat_map V exprs).
Proof.
  unfold exprsToSql.
  assert (H : forall es qs ps,
    fold_left
      (fun acc s =>
       match acc with
       | Panic m => Panic m
       | Ret (qs, newP) =>
           match intfToExpr (AExpr (F s) (V s)) with
           | Panic m => Panic m
           | Ret expr =>
               let newP := if 0 <? length (V expr) then newP ++ V expr else newP in
               Ret (qs ++ [F expr], newP)
           end
       end) es (Ret (qs, ps)) = Ret (qs ++ map F es, ps ++ flat_map V es)).
  { induction es as [|e es IH]; intros qs ps; simpl.
    - rewrite !app_nil_r. reflexivity.
    - rewrite IH. destruct (V e) as [|v vs]; simpl; rewrite <- !app_assoc; reflexivity. }
  apply H.
Qed.

Lemma getExprs_acc (xs : list Any) (acc : list Expr) :
  fold_left
    (fun acc intf =>
       match acc with
       | Panic m => Panic m
       | Ret newExprs =>
           match intfToExpr intf with
           | Panic m => Panic m
           | Ret e => Ret (newExprs ++ [e])
           end
       end) xs (Ret acc)
  = match getExprs xs with Panic m => Panic m | Ret es => Ret (acc ++ es) end.
Proof.
  unfold getExprs. revert acc; induction xs as [|x xs IH]; intros acc; simpl.
  - rewrite app_nil_r. reflexivity.
  - assert (Hp : forall m, fold_left
      (fun acc intf =>
       match acc with
       | Panic m => Panic m
       | Ret newExprs =>
           match intfToExpr intf with
           | Panic m => Panic m
           | Ret e => Ret (newExprs ++ [e])
           end
       end) xs (Panic m) = Panic m)
      by (clear; induction xs; simpl; auto).
    destruct (intfToExpr x) as [e|m]; [|rewrite !Hp; reflexivity].
    rewrite (IH (acc ++ [e])), (IH [e]).
    destruct (fold_left _ xs (Ret [])); [|reflexivity]. rewrite <- app_assoc. reflexivity.
Qed.

Lemma getExprs_cons (x : Any) (xs : list Any) :
  getExprs (x :: xs)
  = match intfToExpr x with
    | Panic m => Panic m
    | Ret e => match getExprs xs with Panic m => Panic m | Ret es => Ret (e :: es) end
    end.
Proof.
  unfold getExprs at 1. cbn [fold_left].
  destruct (intfToExpr x) as [e|m].
  - rewrite getExprs_acc. reflexivity.
  - clear. induction xs; simpl; auto.
Qed.

Lemma getExprs_group_loop (exprs : list Any) :
  match getExprs exprs with
  | Panic m => Panic m
  | Ret es => exprsToSql es
  end = group_loop exprs.
Proof.
  induction exprs as [|x xs IH]; [reflexivity|].
  rewrite getExprs_cons. cbn [group_loop]. destruct (intfToExpr x) as [e|m]; [|reflexivity].
  destruct (getExprs xs) as [es|m]; rewrite <- IH; [|reflexivity].
  rewrite !exprsToSql_ret. reflexivity.
Qed.

(** ** Lemmas for the revised claims *)

Lemma index_qm_cons (c : ascii) (x : str) :
  index qm (c :: x) = None -> Ascii.eqb c "?"%char = false /\ index qm x = None.
Proof.
  intros H. destruct (index_none_app_inv qm [c] x H) as [H1 H2]. split; [|exact H2].
  destruct (Ascii.eqb_spec c "?"%char) as [->|Hc]; [discriminate H1 | reflexivity].
Qed.

Lemma expand_app_noq (D Q x z : str) :
  index qm x = None -> expand_marks D Q (x ++ z) = x ++ expand_marks D Q z.
Proof.
  induction x as [|c x IH]; intros H; [reflexivity|].
  destruct (index_qm_cons _ _ H) as [Hc Hx].
  cbn [app expand_marks]. rewrite Hc, IH by exact Hx. reflexivity.
Qed.

Lemma expand_plain (D Q x : str) : index qm x = None -> expand_marks D Q x = x.
Proof.
  intros H. pose proof (expand_app_noq D Q x [] H) as E. rewrite app_nil_r in E.
  rewrite E. apply app_nil_r.
Qed.

Lemma expand_pair (D Q x r : str) :
  index qm x = None -> expand_marks D Q (x ++ "?"%char :: "?"%char :: r) = x ++ D ++ expand_marks D Q r.
Proof. intros H. rewrite expand_app_noq by exact H. reflexivity. Qed.

Lemma prefixb_qm_cons (c : ascii) (r : str) : prefixb qm (c :: r) = Ascii.eqb "?"%char c.
Proof. rewrite qm_eq. cbn [prefixb]. apply andb_true_r. Qed.

Lemma expand_lone (D Q x r : str) :
  index qm x = None -> prefixb qm r = false ->
  expand_marks D Q (x ++ "?"%char :: r) = x ++ Q ++ expand_marks D Q r.
Proof.
  intros H Hr. rewrite expand_app_noq by exact H. f_equal.
  destruct r as [|c r]; [cbn; rewrite app_nil_r; reflexivity|].
  rewrite prefixb_qm_cons, Ascii.eqb_sym in Hr.
  cbn [expand_marks]. rewrite Hr. reflexivity.
Qed.

Lemma marks_ind (P : str -> Prop) :
  (forall x, index qm x = None -> P x) ->
  (forall x r, index qm x = None -> P r -> P (x ++ "?"%char :: "?"%char :: r)) ->
  (forall x r, index qm x = None -> prefixb qm r = false -> P r -> P (x ++ "?"%char :: r)) ->
  forall t, P t.
Proof.
  intros H0 H2 H1 t. remember (length t) as n eqn:Hn. revert t Hn.
  induction n as [n IH] using lt_wf_ind. intros t Hn.
  destruct (index qm t) as [k|] eqn:Ek; [|apply H0, Ek].
  assert (E : exists x r, t = x ++ "?"%char :: r /\ index qm x = None).
  { exists (firstn k t), (skipn (k + length qm) t). split; [exact (index_decomp _ _ _ Ek)|].
    rewrite index_firstn, Ek. replace (k + length qm <=? k) with false by (symmetry; apply Nat.leb_gt; cbn; lia).
    reflexivity. }
  destruct E as (x & r & -> & Hx). clear Ek. rewrite length_app in Hn. cbn [length] in Hn.
  destruct (prefixb qm r) eqn:Pr.
  - destruct r as [|c r]; [discriminate|].
    rewrite prefixb_qm_cons in Pr. apply Ascii.eqb_eq in Pr. subst c.
    apply H2; [exact Hx|]. apply (IH (length r)); [cbn [length] in Hn; lia | reflexivity].
  - apply H1; [exact Hx | exact Pr |]. apply (IH (length r)); [lia | reflexivity].
Qed.

Lemma index_skip (p z y : str) :
  (forall j, j < length z -> prefixb p (skipn j z ++ y) = false) ->
  index p (z ++ y) = option_map (Nat.add (length z)) (index p y).
Proof.
  induction z as [|c z IH]; intros H; [cbn [app length]; destruct (index p y); reflexivity|].
  change ((c :: z) ++ y) with (c :: (z ++ y)).
  rewrite index_cons_not_prefix by exact (H 0 ltac:(cbn; lia)).
  rewrite IH; [destruct (index p y); reflexivity|].
  intros j Hj. exact (H (S j) ltac:(cbn; lia)).
Qed.

Lemma replace_all_skip (z y old new : str) :
  old <> [] -> index old (z ++ y) = option_map (Nat.add (length z)) (index old y) ->
  replace_all (z ++ y) old new = z ++ replace_all y old new.
Proof.
  intros Ho E. rewrite (replace_all_eq (z ++ y)), (replace_all_eq y) by exact Ho. rewrite E.
  destruct (index old y) as [k|]; [|reflexivity]. cbn [option_map].
  rewrite firstn_app_len, <- Nat.add_assoc, skipn_app_len, <- app_assoc. reflexivity.
Qed.

Lemma prefixb_disagree (u v y : str) : disagree u v = true -> prefixb u (v ++ y) = false.
Proof.
  unfold disagree. revert v; induction u as [|a u IH]; intros v H; [discriminate|].
  destruct v as [|b v]; [rewrite andb_false_r in H; discriminate|].
  cbn [prefixb app] in *. destruct (Ascii.eqb_spec a b) as [->|Hab]; [|reflexivity].
  rewrite Ascii.eqb_refl in H. cbn [andb] in *. apply IH, H.
Qed.

Lemma prefixb_split (p u z : str) :
  prefixb p (u ++ z) = true -> length u <= length p -> prefixb (skipn (length u) p) z = true.
Proof.
  revert p; induction u as [|a u IH]; intros p H L; [exact H|].
  destruct p as [|b p]; [cbn in L; lia|].
  cbn [app prefixb] in H. apply andb_true_iff in H as [_ H].
  cbn [length skipn]. apply IH; [exact H | cbn in L; lia].
Qed.

Lemma prefixb_firstn_of (p s : str) (m : nat) : prefixb p s = true -> prefixb (firstn m p) s = true.
Proof.
  intros [t ->]%prefixb_true. apply prefixb_true. exists (skipn m p ++ t).
  rewrite app_assoc, firstn_skipn. reflexivity.
Qed.

Lemma no_start (B x E y : str) (m : nat) :
  m <= length B -> index (firstn m B) x = None ->
  (forall d, 1 <= d < m -> disagree (skipn d B) E = true) ->
  (forall j, j < length E -> prefixb B (skipn j E ++ y) = false) ->
  index B ((x ++ E) ++ y) = option_map (Nat.add (length (x ++ E))) (index B y).
Proof.
  intros Hm Hx HD HE. apply index_skip. intros j Hj. rewrite length_app in Hj.
  destruct (lt_dec j (length x)) as [Lj|Lj].
  - rewrite skipn_app. replace (j - length x) with 0 by lia. cbn [skipn]. rewrite <- app_assoc.
    assert (Lu : length (skipn j x) = length x - j) by apply length_skipn.
    apply not_true_iff_false. intros Hp.
    destruct (le_lt_dec m (length (skipn j x))) as [L|L].
    + pose proof (prefixb_firstn_of _ _ m Hp) as Hf.
      apply prefixb_app_short in Hf; [|rewrite length_firstn; lia].
      rewrite (index_none _ _ Hx j ltac:(lia)) in Hf. discriminate.
    + apply prefixb_split in Hp; [|lia].
      rewrite (prefixb_disagree _ _ y (HD (length (skipn j x)) ltac:(lia))) in Hp. discriminate.
  - rewrite skipn_app, skipn_all2 by lia. cbn [app]. apply HE. lia.
Qed.

Lemma disagree_range (B E : str) (a n : nat) :
  forallb (fun d => disagree (skipn d B) E) (seq a n) = true ->
  forall d, a <= d < a + n -> disagree (skipn d B) E = true.
Proof. intros H d Hd. rewrite forallb_forall in H. apply H, in_seq. lia. Qed.

Lemma disagree_range' (B E : str) :
  forallb (fun j => disagree B (skipn j E)) (seq 0 (length E)) = true ->
  forall j y, j < length E -> prefixb B (skipn j E ++ y) = false.
Proof.
  intros H j y Hj. rewrite forallb_forall in H. apply prefixb_disagree, H, in_seq. lia.
Qed.

(** Masking [??] pairs with [strings.ReplaceAll]. *)
Lemma replace_all_marks (B t : str) : replace_all t dqm B = expand_marks B qm t.
Proof.
  induction t as [x Hx | x r Hx IH | x r Hx Hr IH] using marks_ind.
  - rewrite expand_plain by exact Hx. rewrite replace_all_eq by discriminate.
    change dqm with (qm ++ qm). rewrite (index_none_ext qm qm x Hx). reflexivity.
  - rewrite expand_pair by exact Hx.
    change (x ++ "?"%char :: "?"%char :: r) with (x ++ dqm ++ r).
    rewrite replace_all_eq by discriminate.
    rewrite (index_period_free dqm x r 1) by first [exact Hx | reflexivity | cbn; lia].
    rewrite firstn_app_exact, skipn_app_len. change (skipn (length dqm) (dqm ++ r)) with r.
    rewrite IH. reflexivity.
  - rewrite expand_lone by assumption.
    replace (x ++ "?"%char :: r) with ((x ++ qm) ++ r) by (rewrite <- app_assoc; reflexivity).
    rewrite replace_all_skip; [rewrite IH, <- app_assoc; reflexivity | discriminate |].
    apply index_skip. intros j Hj. rewrite length_app in Hj. change (length qm) with 1 in Hj.
    destruct (lt_dec j (length x)) as [Lj|Lj].
    + rewrite skipn_app. replace (j - length x) with 0 by lia.
      pose proof (index_none _ _ Hx j ltac:(lia)) as Hq.
      assert (Ls : length (skipn j x) = length x - j) by apply length_skipn.
      destruct (skipn j x) as [|c s] eqn:Es; [cbn in Ls; lia|].
      rewrite prefixb_qm_cons in Hq. cbn [app prefixb dqm lit String.list_ascii_of_string]. rewrite Hq. reflexivity.
    + replace j with (length x + 0) by lia. rewrite skipn_app_len. cbn [skipn qm lit String.list_ascii_of_string app].
      cbn [dqm lit String.list_ascii_of_string prefixb]. rewrite Ascii.eqb_refl. cbn [andb].
      rewrite qm_eq in Hr. exact Hr.
Qed.

Lemma rep_q_expand (D : str) : index qm D = None ->
  forall t n, n = occ qm (expand_marks D qm t) -> rep_q n (expand_marks D qm t) = expand_marks D paramPh t.
Proof.
  intros HD t. induction t as [x Hx | x r Hx IH | x r Hx Hr IH] using marks_ind.
  - intros n Hn. rewrite expand_plain in Hn by exact Hx. rewrite !expand_plain by exact Hx.
    apply occ_zero_index in Hx. subst n. rewrite Hx. reflexivity.
  - intros n Hn. rewrite expand_pair in Hn by exact Hx. rewrite !expand_pair by exact Hx.
    rewrite !occ_qm_app in Hn. apply occ_zero_index in HD as HD'. apply occ_zero_index in Hx as Hx'.
    rewrite app_assoc, rep_q_skip by (rewrite qm_eq in *; apply index_none_app; assumption).
    rewrite <- app_assoc, IH by lia. reflexivity.
  - intros n Hn. rewrite expand_lone in Hn by assumption. rewrite !expand_lone by assumption.
    rewrite !occ_qm_app in Hn. apply occ_zero_index in Hx as Hx'. change (occ qm qm) with 1 in Hn.
    destruct n as [|n]; [lia|]. rewrite rep_q_mark by exact Hx. rewrite IH by lia. reflexivity.
Qed.

Lemma occ_expand_qm (D D' : str) : index qm D = None -> index qm D' = None ->
  forall t, occ qm (expand_marks D qm t) = occ qm (expand_marks D' qm t).
Proof.
  intros HD HD' t. apply occ_zero_index in HD, HD'. induction t as [x Hx | x r Hx IH | x r Hx Hr IH] using marks_ind.
  - rewrite !expand_plain by exact Hx. reflexivity.
  - rewrite !expand_pair by exact Hx. rewrite !occ_qm_app, HD, HD', IH. reflexivity.
  - rewrite !expand_lone by assumption. rewrite !occ_qm_app, IH. reflexivity.
Qed.

Lemma occ_expand_none (D E : str) : index qm D = None -> index qm E = None ->
  forall t, occ qm (expand_marks D E t) = 0.
Proof.
  intros HD HE t. apply occ_zero_index in HD, HE. induction t as [x Hx | x r Hx IH | x r Hx Hr IH] using marks_ind.
  - rewrite !expand_plain by exact Hx. apply occ_zero_index, Hx.
  - rewrite !expand_pair by exact Hx. apply occ_zero_index in Hx.
    rewrite !occ_qm_app, HD, Hx, IH. reflexivity.
  - rewrite !expand_lone by assumption. apply occ_zero_index in Hx.
    rewrite !occ_qm_app, HE, Hx, IH. reflexivity.
Qed.

Lemma index_none_pair (p x r : str) :
  index p (x ++ "?"%char :: "?"%char :: r) = None -> index p r = None.
Proof.
  intros H. apply index_none_app_inv in H as [_ H].
  change ("?"%char :: "?"%char :: r) with (["?"%char; "?"%char] ++ r) in H.
  apply index_none_app_inv in H as [_ H]. exact H.
Qed.

Lemma index_none_lone (p x r : str) :
  index p (x ++ "?"%char :: r) = None -> index p r = None.
Proof.
  intros H. apply index_none_app_inv in H as [_ H].
  change ("?"%char :: r) with (["?"%char] ++ r) in H.
  apply index_none_app_inv in H as [_ H]. exact H.
Qed.

Lemma index_none_front (p x r : str) :
  index p (x ++ r) = None -> index p x = None.
Proof. intros H. apply index_none_app_inv in H as [H _]. exact H. Qed.

(** Unmasking: the sentinel [B] put in place of the [??] pairs is found
    again, and only there, when the template does not hold the first [m]
    bytes of [B] and nothing inserted for a lone mark ([E]) can be
    mistaken for a part of [B]. *)
Lemma unmask (B C E : str) (m : nat) :
  0 < m <= length B -> period_free B m = true ->
  (forall d, 1 <= d < m -> disagree (skipn d B) E = true) ->
  (forall j y, j < length E -> prefixb B (skipn j E ++ y) = false) ->
  forall t, index (firstn m B) t = None -> replace_all (expand_marks B E t) B C = expand_marks C E t.
Proof.
  intros Hm HB HD HE.
  assert (HBn : B <> []) by (destruct B; cbn in Hm; [lia | discriminate]).
  intros t. induction t as [x Hx | x r Hx IH | x r Hx Hr IH] using marks_ind.
  - intros Ht. rewrite !expand_plain by exact Hx.
    rewrite replace_all_eq by exact HBn.
    assert (HxB : index B x = None) by (rewrite <- (firstn_skipn m B); apply index_none_ext, Ht).
    rewrite HxB. reflexivity.
  - intros Ht. rewrite !expand_pair by exact Hx.
    rewrite replace_all_eq by exact HBn.
    rewrite (index_period_free B x _ m) by first [lia | exact HB | exact (index_none_front _ _ _ Ht)].
    rewrite firstn_app_exact, skipn_app_len, skipn_app, skipn_all, Nat.sub_diag. cbn [app skipn].
    rewrite IH by exact (index_none_pair _ _ _ Ht). reflexivity.
  - intros Ht. rewrite !expand_lone by assumption.
    rewrite app_assoc, replace_all_skip; [| exact HBn |].
    + rewrite IH by exact (index_none_lone _ _ _ Ht). rewrite app_assoc. reflexivity.
    + apply (no_start B x E _ m); [lia | exact (index_none_front _ _ _ Ht) | exact HD |].
      intros j Hj. apply HE, Hj.
Qed.

Lemma count_skip (z y sub : str) :
  sub <> [] -> index sub (z ++ y) = option_map (Nat.add (length z)) (index sub y) ->
  count (z ++ y) sub = count y sub.
Proof.
  intros Hs E. destruct (index sub y) as [k|] eqn:Ek.
  - rewrite (count_some _ sub _ Hs E), (count_some _ sub _ Hs Ek).
    rewrite <- Nat.add_assoc, skipn_app_len. reflexivity.
  - apply count_zero_index in Ek, E. rewrite Ek, E. reflexivity.
Qed.

Lemma R_skip (ph : str) (g : nat -> str) (i : nat) (z y : str) :
  ph <> [] -> index ph (z ++ y) = option_map (Nat.add (length z)) (index ph y) ->
  replace_occ_from ph g i (z ++ y) = z ++ replace_occ_from ph g i y.
Proof.
  intros Hph E. destruct (index ph y) as [k|] eqn:Ek.
  - rewrite (R_some ph g Hph i _ _ E), (R_some ph g Hph i _ _ Ek).
    rewrite firstn_app_len, <- Nat.add_assoc, skipn_app_len, <- app_assoc. reflexivity.
  - rewrite (R_none ph g i _ E), (R_none ph g i _ Ek). reflexivity.
Qed.

Lemma tmpQ_paramPh_apart :
  (forall d, 1 <= d < 13 -> disagree (skipn d tmpQ) paramPh = true) /\
  (forall j y, j < length paramPh -> prefixb tmpQ (skipn j paramPh ++ y) = false).
Proof.
  split; [intros d Hd; apply (disagree_range _ _ 1 12); [vm_compute; reflexivity | lia]|].
  apply disagree_range'. vm_compute. reflexivity.
Qed.

Lemma tempPh_paramPh_apart :
  (forall d, 1 <= d < 6 -> disagree (skipn d tempPh) paramPh = true) /\
  (forall j y, j < length paramPh -> prefixb tempPh (skipn j paramPh ++ y) = false).
Proof.
  split; [intros d Hd; apply (disagree_range _ _ 1 5); [vm_compute; reflexivity | lia]|].
  apply disagree_range'. vm_compute. reflexivity.
Qed.

Lemma paramPh_tempPh_apart :
  (forall d, 1 <= d < 10 -> disagree (skipn d paramPh) tempPh = true) /\
  (forall j y, j < length tempPh -> prefixb paramPh (skipn j tempPh ++ y) = false).
Proof.
  split; [intros d Hd; apply (disagree_range _ _ 1 9); [vm_compute; reflexivity | lia]|].
  apply disagree_range'. vm_compute. reflexivity.
Qed.

Lemma paramPh_dqm_apart :
  (forall d, 1 <= d < 10 -> disagree (skipn d paramPh) dqm = true) /\
  (forall j y, j < length dqm -> prefixb paramPh (skipn j dqm ++ y) = false).
Proof.
  split; [intros d Hd; apply (disagree_range _ _ 1 9); [vm_compute; reflexivity | lia]|].
  apply disagree_range'. vm_compute. reflexivity.
Qed.

Lemma count_expand (t : str) : index (firstn 10 paramPh) t = None ->
  count (expand_marks tempPh paramPh t) paramPh = occ qm (expand_marks tempPh qm t).
Proof.
  induction t as [x Hx | x r Hx IH | x r Hx Hr IH] using marks_ind.
  - intros Ht. rewrite !expand_plain by exact Hx.
    rewrite (proj2 (count_zero_index _ _) (index_paramPh_free _ Ht)). symmetry. apply occ_zero_index, Hx.
  - intros Ht. rewrite !expand_pair by exact Hx.
    rewrite app_assoc, count_skip; [| exact paramPh_nonempty |].
    + rewrite IH by exact (index_none_pair _ _ _ Ht).
      rewrite !occ_qm_app. apply occ_zero_index in Hx. rewrite Hx. reflexivity.
    + destruct paramPh_tempPh_apart as [H1 H2].
      apply (no_start paramPh x tempPh _ 10); [cbn; lia | exact (index_none_front _ _ _ Ht) | exact H1 |].
      intros j Hj. apply H2, Hj.
  - intros Ht. rewrite !expand_lone by assumption.
    rewrite (count_some _ paramPh _ paramPh_nonempty (index_paramPh_mark _ _ (index_none_front _ _ _ Ht))).
    rewrite skipn_app_len. change (skipn (length paramPh) (paramPh ++ ?y)) with y.
    rewrite IH by exact (index_none_lone _ _ _ Ht).
    rewrite !occ_qm_app. apply occ_zero_index in Hx. rewrite Hx. reflexivity.
Qed.

Lemma mysql_expand (t : str) : index (firstn 10 paramPh) t = None ->
  forall i, replace_occ_from paramPh (fun _ => qm) i (expand_marks dqm paramPh t) = t.
Proof.
  induction t as [x Hx | x r Hx IH | x r Hx Hr IH] using marks_ind.
  - intros Ht i. rewrite expand_plain by exact Hx. apply R_none, index_paramPh_free, Ht.
  - intros Ht i. rewrite expand_pair by exact Hx.
    rewrite app_assoc, R_skip; [| exact paramPh_nonempty |].
    + rewrite IH by exact (index_none_pair _ _ _ Ht). rewrite <- app_assoc. reflexivity.
    + destruct paramPh_dqm_apart as [H1 H2].
      apply (no_start paramPh x dqm _ 10); [cbn; lia | exact (index_none_front _ _ _ Ht) | exact H1 |].
      intros j Hj. apply H2, Hj.
  - intros Ht i. rewrite expand_lone by assumption.
    rewrite (R_some paramPh _ paramPh_nonempty i _ _ (index_paramPh_mark _ _ (index_none_front _ _ _ Ht))).
    rewrite firstn_app_exact, skipn_app_len. change (skipn (length paramPh) (paramPh ++ ?y)) with y.
    rewrite IH by exact (index_none_lone _ _ _ Ht). reflexivity.
Qed.

Lemma length_expand (t : str) :
  length (expand_marks dqm paramPh t) = length t + 10 * occ qm (expand_marks tempPh qm t).
Proof.
  induction t as [x Hx | x r Hx IH | x r Hx Hr IH] using marks_ind.
  - rewrite !expand_plain by exact Hx. apply occ_zero_index in Hx. rewrite Hx. lia.
  - rewrite !expand_pair by exact Hx.
    rewrite !occ_qm_app, !length_app, IH. apply occ_zero_index in Hx. rewrite Hx.
    change (occ qm tempPh) with 0. cbn [length]. change (length dqm) with 2. lia.
  - rewrite !expand_lone by assumption.
    rewrite !occ_qm_app, !length_app, IH. apply occ_zero_index in Hx. rewrite Hx.
    change (occ qm qm) with 1. cbn [length]. change (length paramPh) with 11. lia.
Qed.

Lemma fold_makePart_scalar (args : list Any) (s : str) (ps : list Any) (es : list error) :
  forallb scalar args = true ->
  fold_left makePart_step args (s, ps, es) = (rep_q (length args) s, ps ++ args, es).
Proof.
  revert s ps; induction args as [|a args IH]; intros s ps H; cbn [fold_left length rep_q].
  - rewrite app_nil_r. reflexivity.
  - cbn [forallb] in H. apply andb_true_iff in H as [Ha H].
    assert (E : makePart_step (s, ps, es) a = (replace_first s qm paramPh, ps ++ [a], es)).
    { destruct a; try discriminate; cbn [makePart_step convertArg]; rewrite app_nil_r; reflexivity. }
    rewrite E, IH by exact H. rewrite <- app_assoc. reflexivity.
Qed.

Lemma fold_valf_scalar (args : list Any) (s : str) (ps : list Any) :
  forallb scalar args = true ->
  fold_left valf_step args (s, ps) = (rep_q (length args) s, ps ++ args).
Proof.
  revert s ps; induction args as [|a args IH]; intros s ps H; cbn [fold_left length rep_q].
  - rewrite app_nil_r. reflexivity.
  - cbn [forallb] in H. apply andb_true_iff in H as [Ha H].
    assert (E : valf_step (s, ps) a = (replace_first s qm paramPh, ps ++ [a])).
    { destruct a; try discriminate; reflexivity. }
    rewrite E, IH by exact H. rewrite <- app_assoc. reflexivity.
Qed.

Lemma scanReplace_fits (s ph : str) (fn : nat -> str) :
  ph <> [] -> segments_fit ph s = true ->
  scanReplace s ph (fun i => Ret (fn i)) = Ret (replace_occ ph fn s, None).
Proof.
  intros Hph Hf. unfold scanReplace.
  rewrite (scan_tokens_spec s ph fn); [reflexivity | assumption | | exact Hf | simpl; lia].
  unfold scan_valid; simpl. pose proof buffer_sizes. repeat split; intros; try lia; discriminate.
Qed.



Lemma group_loop_subst (pre post : list Any) (x y : Any) :
  intfToExpr x = intfToExpr y -> group_loop (pre ++ x :: post) = group_loop (pre ++ y :: post).
Proof.
  intros H. induction pre as [|a pre IH]; cbn [app group_loop]; [rewrite H; reflexivity|].
  rewrite IH. reflexivity.
Qed.

Lemma group_loop_panic_any (pre post : list Any) (x : Any) (m : str) :
  intfToExpr x = Panic m -> exists m', group_loop (pre ++ x :: post) = Panic m'.
Proof.
  intros H. induction pre as [|a pre IH]; cbn [app group_loop]; [rewrite H; eauto|].
  destruct (intfToExpr a); [|eauto]. destruct IH as [m' ->]. eauto.
Qed.

(** * The claims *)

(** C1: the builders report every imbalance between placeholders and
    values.  Valf does not: [Valf("a", 1)] returns the fragment [a] with
    the value list [[1]], zero placeholders for one value, without a
    panic; the sibling makePart reports the same input as
    [missing ? in text]. *)
Lemma valf_extra_argument_unreported :
  Valf (lit "a") [AInt 1] = Ret (mkExpr (lit "a") [AInt 1]) /\
  count (lit "a") paramPh = 0 /\
  Errs (makePart (lit "a") [AInt 1]) = [lit "missing ? in text: a (1 args)"].
Proof. vm_compute. repeat split; reflexivity. Qed.

(** C2 (counterexample): a statement of 70000 bytes with no marker
    exceeds the scanner's 64 KiB token limit: scanReplace returns an
    empty text and [bufio.ErrTooLong] instead of the unchanged text. *)
Lemma scanReplace_long_text_error :
  index paramPh (letters 70000) = None /\
  scanReplace (letters 70000) paramPh (fun _ => Ret qm) = Ret ([], Some ErrTooLong).
Proof. split; vm_compute; reflexivity. Qed.

(** C2: for a non-empty marker [ph], on every input whose marker-free
    stretches fit the scanner's buffer ([segments_fit]), scanReplace
    replaces the [i]-th non-overlapping left-to-right occurrence of [ph]
    by [fn i], keeps all other text, and returns no error; on every other
    input it returns [bufio.ErrTooLong]. *)
Theorem scanReplace_replaces_markers (s ph : str) (fn : nat -> str) :
  ph <> [] ->
  (segments_fit ph s = true ->
   scanReplace s ph (fun i => Ret (fn i)) = Ret (replace_occ ph fn s, None)) /\
  (segments_fit ph s = false ->
   exists t, scanReplace s ph (fun i => Ret (fn i)) = Ret (t, Some ErrTooLong)).
Proof.
  intros Hph. split; [apply scanReplace_fits, Hph | apply scanReplace_too_long, Hph].
Qed.

Lemma scanReplace_replaces_markers_witness :
  lit "xX_PARAM_Xx" <> [] /\
  scanReplace (lit "a = xX_PARAM_Xx") (lit "xX_PARAM_Xx") (fun i => Ret (lit "$1"))
  = Ret (replace_occ (lit "xX_PARAM_Xx") (fun _ => lit "$1") (lit "a = xX_PARAM_Xx"), None).
Proof.
  assert (H1 : lit "xX_PARAM_Xx" <> []) by discriminate.
  assert (H2 : segments_fit (lit "xX_PARAM_Xx") (lit "a = xX_PARAM_Xx") = true)
    by (vm_compute; reflexivity).
  split; [exact H1|].
  exact (proj1 (scanReplace_replaces_markers _ _ (fun _ => lit "$1") H1) H2).
Defined.

(** C3 (counterexample): [Valf("? = ?", 1)] panics instead of returning a
    fragment with an accumulated error. *)
Lemma valf_count_mismatch_panics :
  Valf (lit "? = ?") [AInt 1] = Panic (lit "mismatched paramters for Valf: ? = ?").
Proof. vm_compute. reflexivity. Qed.

(** C3: for a template without the text [PARAM] and scalar arguments
    (no slice, Valuer, Embedder, JSON value, nested query or Expr),
    makePart reports a mismatch between the template's placeholders and
    the arguments, in either direction, as an accumulated error and
    returns a non-empty text for a non-empty template; Valf accumulates
    no error: it panics when the placeholders outnumber the arguments. *)
Theorem builders_count_mismatch (t : str) (args : list Any) :
  forallb scalar args = true ->
  occ (lit "PARAM") t = 0 ->
  lone_marks t <> length args ->
  (Errs (makePart t args) <> [] /\ (t <> [] -> Text (makePart t args) <> [])) /\
  (length args < lone_marks t -> Valf t args = Panic (lit "mismatched paramters for Valf: " ++ t)).
Proof.
  intros Hs HP Hne. unfold lone_marks in *.
  assert (Hv : occ qm (replace_all t dqm tmpQ) = occ qm (replace_all t dqm tempPh))
    by (apply replace_all_occ_qm; reflexivity).
  split.
  - unfold makePart. rewrite fold_makePart_scalar by exact Hs. cbn zeta. simpl app. split.
    + unfold checkParamCounts.
      destruct (0 <? count _ qm) eqn:C1; [destruct (_ ++ _); discriminate|].
      destruct (count _ paramPh <? _) eqn:C2; [destruct (_ ++ _); discriminate|].
      exfalso. apply Nat.ltb_ge in C1, C2.
      assert (C1' : count (rep_q (length args) (replace_all t dqm tempPh)) qm = 0) by lia.
      apply count_zero_index, occ_zero_index in C1'. rewrite rep_q_occ_qm in C1'.
      pose proof (count_le_occ (lit "PARAM") (lit "xX_") (lit "_Xx")
                   (rep_q (length args) (replace_all t dqm tempPh)) ltac:(discriminate)) as L.
      change (lit "xX_" ++ lit "PARAM" ++ lit "_Xx") with paramPh in L.
      rewrite rep_q_occ_PARAM, replace_all_occ_PARAM in *. lia.
    + intros Ht. apply replace_all_nonempty; [|discriminate].
      apply rep_q_nonempty, replace_all_nonempty; [exact Ht | discriminate].
  - intros Hlt. unfold Valf. rewrite fold_valf_scalar by exact Hs. cbn zeta.
    destruct (contains _ qm) eqn:C; [reflexivity|].
    apply contains_occ in C. rewrite rep_q_occ_qm in C. lia.
Qed.

Lemma builders_count_mismatch_witness :
  (forallb scalar [AInt 1] = true /\ occ (lit "PARAM") (lit "? = ?") = 0 /\
   lone_marks (lit "? = ?") <> length [AInt 1]) /\
  (Errs (makePart (lit "? = ?") [AInt 1]) <> [] /\
   (lit "? = ?" <> [] -> Text (makePart (lit "? = ?") [AInt 1]) <> [])) /\
  (length [AInt 1] < lone_marks (lit "? = ?") ->
   Valf (lit "? = ?") [AInt 1] = Panic (lit "mismatched paramters for Valf: " ++ lit "? = ?")).
Proof.
  assert (H0 : forallb scalar [AInt 1] = true) by reflexivity.
  assert (H1 : occ (lit "PARAM") (lit "? = ?") = 0) by (vm_compute; reflexivity).
  assert (H2 : lone_marks (lit "? = ?") <> length [AInt 1]) by (vm_compute; discriminate).
  split; [exact (conj H0 (conj H1 H2))|].
  exact (builders_count_mismatch (lit "? = ?") [AInt 1] H0 H1 H2).
Defined.




(** C5 (counterexample): [Valf("?", Valf("x = ?", 5))] does not inline the
    inner text: it yields one placeholder bound to the inner Expr as an
    opaque value. *)
Lemma valf_nested_expr_not_inlined :
  match Valf (lit "x = ?") [AInt 5] with
  | Ret e => Valf (lit "?") [AExpr (F e) (V e)]
  | Panic m => Panic m
  end = Ret (mkExpr paramPh [AExpr (lit "x = " ++ paramPh) [AInt 5]]).
Proof. vm_compute. reflexivity. Qed.

(** C5: makePart inlines a nested query: its SQL text replaces the [?] and
    its parameters become the fragment's parameters, without error; Valf
    binds a nested Expr as one value. *)
Theorem nested_query_inlined_expr_bound (t sql : str) (ps : list Any) (f : str) (v : list Any) :
  convertArg t (AQuery (Some (sql, ps, None))) = (replace_first t qm sql, ps, []) /\
  Params (makePart t [AQuery (Some (sql, ps, None))]) = ps /\
  (forall e, Valf t [AExpr f v] = Ret e -> V e = [AExpr f v]).
Proof.
  split; [reflexivity|]. split.
  - unfold makePart. cbn [fold_left makePart_step convertArg]. destruct (checkParamCounts _ _ _); reflexivity.
  - intros e. unfold Valf. cbn [fold_left valf_step app].
    destruct (contains _ qm); [discriminate|]. intros E. inversion E. reflexivity.
Qed.

(** C6 (counterexample): Valf with an empty [[]int] removes the [?] and
    binds no value: [id in (?)] becomes [id in ()]. *)
Lemma valf_empty_slice_no_null :
  Valf (lit "id in (?)") [AIntSlice []] = Ret (mkExpr (lit "id in ()") []).
Proof. vm_compute. reflexivity. Qed.

(** C6: in makePart an empty [[]*int] or [[]*string] gives one
    placeholder bound to nil; in Valf an empty [[]int], [[]string] or
    [[]any] replaces the [?] by nothing and binds no value. *)
Theorem empty_slices (t : str) (ps : list Any) :
  convertArg t (AIntPtrSlice []) = (replace_first t qm paramPh, [ANil], []) /\
  convertArg t (AStrPtrSlice []) = (replace_first t qm paramPh, [ANil], []) /\
  Params (makePart t [AIntPtrSlice []]) = [ANil] /\
  Params (makePart t [AStrPtrSlice []]) = [ANil] /\
  valf_step (t, ps) (AIntSlice []) = (replace_first t qm [], ps) /\
  valf_step (t, ps) (AStringSlice []) = (replace_first t qm [], ps) /\
  valf_step (t, ps) (AAnySlice []) = (replace_first t qm [], ps).
Proof.
  unfold makePart. cbn [fold_left makePart_step convertArg valf_step length Nat.ltb Nat.leb map app].
  rewrite app_nil_r.
  repeat split; try reflexivity; destruct (checkParamCounts _ _ _); reflexivity.
Qed.

(** C7 (counterexample): two unsupported parameters under RAW give only
    the first failure, and an empty text. *)
Lemma raw_reports_first_failure_only :
  dialectReplace RAW (paramPh ++ lit " = " ++ paramPh) [AOther (lit "main.A"); AOther (lit "main.B")]
  = Ret ([], [lit "unsupported type for Raw query: main.A"]).
Proof. vm_compute. reflexivity. Qed.

(** C7: under RAW, the parameters are converted in order and the first
    one that cannot be converted ends the rendering with an empty text
    and that one error. *)
Theorem raw_first_unsupported (sql : str) (pre post : list Any) (p : Any) (e : error) :
  Forall (fun q => exists r, paramToRaw q = inl r) pre -> paramToRaw p = inr e ->
  dialectReplace RAW sql (pre ++ p :: post) = Ret ([], [e]).
Proof. intros Hpre Hp. cbn [dialectReplace]. rewrite (raws_of_first_error pre post p e Hpre Hp). reflexivity. Qed.

Lemma raw_first_unsupported_witness :
  (Forall (fun q => exists r, paramToRaw q = inl r) [AFloat (lit "float64") (lit "2.5")] /\
   paramToRaw (AOther (lit "main.A")) = inr (lit "unsupported type for Raw query: main.A")) /\
  dialectReplace RAW (lit "a = xX_PARAM_Xx and b = xX_PARAM_Xx and c = xX_PARAM_Xx")
    ([AFloat (lit "float64") (lit "2.5")] ++ AOther (lit "main.A") :: [AOther (lit "main.B")])
  = Ret ([], [lit "unsupported type for Raw query: main.A"]).
Proof.
  assert (H0 : Forall (fun q => exists r, paramToRaw q = inl r) [AFloat (lit "float64") (lit "2.5")])
    by (constructor; [eexists; reflexivity | constructor]).
  assert (H1 : paramToRaw (AOther (lit "main.A")) = inr (lit "unsupported type for Raw query: main.A"))
    by reflexivity.
  split; [split; [exact H0 | exact H1]|].
  exact (raw_first_unsupported _ [AFloat (lit "float64") (lit "2.5")] [AOther (lit "main.B")] _ _ H0 H1).
Defined.

(** C8 (counterexample): makePart restores a masked [??] as [??], not
    [?]; rendered under MYSQL the text keeps both marks.  Valf, on the
    same template, does restore a single [?]. *)
Lemma makePart_keeps_double_mark :
  makePart (lit "?? and ?") [AInt 1] = mkQueryPart (lit "?? and " ++ paramPh) [AInt 1] [] /\
  dialectReplace MYSQL (lit "?? and " ++ paramPh) [AInt 1] = Ret (lit "?? and ?", []) /\
  Valf (lit "?? and ?") [AInt 1] = Ret (mkExpr (lit "? and " ++ paramPh) [AInt 1]).
Proof. repeat split; vm_compute; reflexivity. Qed.

(** C8: for scalar arguments as many as the template's placeholders
    (the [?] left once the [??] pairs are set apart), Valf restores every
    [??] of the template to a single [?] and turns every placeholder into
    the internal token (when the template does not contain its sentinel),
    while makePart restores every [??] to [??] (when the template holds
    neither the first six bytes of its sentinel nor [xX_PARAM_X]); the
    MYSQL and SQL renderings of makePart's text give back the template,
    [??] included, when that text fits the scanner's buffer. *)
Theorem builders_restore_double_marks (t : str) (args : list Any) :
  forallb scalar args = true -> lone_marks t = length args ->
  (contains t tmpQ = false -> Valf t args = Ret (mkExpr (expand_marks qm paramPh t) args)) /\
  (contains t (firstn 6 tempPh) = false -> contains t (firstn 10 paramPh) = false ->
   makePart t args = mkQueryPart (expand_marks dqm paramPh t) args [] /\
   (length t + 10 * length args < maxTokenSize ->
    dialectReplace MYSQL (expand_marks dqm paramPh t) args = Ret (t, []) /\
    dialectReplace SQL (expand_marks dqm paramPh t) args = Ret (t, []))).
Proof.
  intros Hs Hn. unfold lone_marks in Hn. rewrite replace_all_marks in Hn.
  split.
  - intros Hq. apply contains_index in Hq. unfold Valf.
    rewrite replace_all_marks, fold_valf_scalar by exact Hs. cbn zeta.
    rewrite (rep_q_expand tmpQ eq_refl t (length args));
      [| rewrite <- Hn; apply occ_expand_qm; reflexivity].
    replace (contains (expand_marks tmpQ paramPh t) qm) with false
      by (symmetry; apply contains_index, occ_zero_index, occ_expand_none; reflexivity).
    destruct tmpQ_paramPh_apart as [A1 A2].
    rewrite (unmask tmpQ qm paramPh 13); [reflexivity | cbn; lia | exact tmpQ_period_free | exact A1 | exact A2 | exact Hq].
  - intros H6 H10. apply contains_index in H6, H10. split.
    + unfold makePart. rewrite replace_all_marks, fold_makePart_scalar by exact Hs. cbn zeta.
      rewrite (rep_q_expand tempPh eq_refl t (length args) (eq_sym Hn)).
      unfold checkParamCounts.
      replace (count (expand_marks tempPh paramPh t) qm) with 0
        by (symmetry; apply count_zero_index, occ_zero_index, occ_expand_none; reflexivity).
      rewrite count_expand, Hn by exact H10. rewrite !Nat.ltb_irrefl. cbn [app].
      destruct tempPh_paramPh_apart as [A1 A2].
      rewrite (unmask tempPh dqm paramPh 6); [reflexivity | cbn; lia | exact tempPh_period_free | exact A1 | exact A2 | exact H6].
    + intros L.
      assert (Hf : segments_fit paramPh (expand_marks dqm paramPh t) = true).
      { apply (fits_short paramPh paramPh_nonempty (S (length (expand_marks dqm paramPh t)))); [lia|].
        rewrite length_expand, Hn. exact L. }
      unfold dialectReplace. cbn [replaceWithScans pattern sfn].
      rewrite (scanReplace_fits _ paramPh (fun _ => qm) paramPh_nonempty Hf).
      unfold replace_occ. change (replace_occ_aux (S (length ?s)) paramPh ?g 0 ?s) with (replace_occ_from paramPh g 0 s).
      rewrite mysql_expand by exact H10. split; reflexivity.
Qed.

Lemma builders_restore_double_marks_witness :
  (forallb scalar [AInt 1] = true /\ lone_marks (lit "?? and ?") = length [AInt 1]) /\
  Valf (lit "?? and ?") [AInt 1] = Ret (mkExpr (lit "? and " ++ paramPh) [AInt 1]) /\
  makePart (lit "?? and ?") [AInt 1] = mkQueryPart (lit "?? and " ++ paramPh) [AInt 1] [] /\
  dialectReplace MYSQL (lit "?? and " ++ paramPh) [AInt 1] = Ret (lit "?? and ?", []).
Proof.
  assert (H0 : forallb scalar [AInt 1] = true) by reflexivity.
  assert (H1 : lone_marks (lit "?? and ?") = length [AInt 1]) by (vm_compute; reflexivity).
  assert (H2 : contains (lit "?? and ?") tmpQ = false) by (vm_compute; reflexivity).
  assert (H3 : contains (lit "?? and ?") (firstn 6 tempPh) = false) by (vm_compute; reflexivity).
  assert (H4 : contains (lit "?? and ?") (firstn 10 paramPh) = false) by (vm_compute; reflexivity).
  assert (H5 : length (lit "?? and ?") + 10 * length [AInt 1] < maxTokenSize)
    by (apply Nat.ltb_lt; vm_compute; reflexivity).
  destruct (builders_restore_double_marks _ _ H0 H1) as [V M].
  destruct (M H3 H4) as [M1 M2].
  split; [exact (conj H0 H1)|]. split; [|split].
  - rewrite (V H2). vm_compute. reflexivity.
  - rewrite M1. vm_compute. reflexivity.
  - exact (proj1 (M2 H5)).
Defined.

(** C9 (counterexample): a string [a ?? b] given to Group comes back as
    [a ? b], not unchanged. *)
Lemma group_string_escape_rewritten :
  Group (lit " AND ") [AString (lit "a ?? b")] = Ret (mkExpr (lit "a ? b") []).
Proof. vm_compute. reflexivity. Qed.

(** C9: a plain string among the arguments of Group (and so of And and
    Or), at any position, makes the call panic when a [?] is left once
    its [??] pairs are masked, with the message of that string when the
    arguments before it are accepted; otherwise (for a string without the
    sentinel) it acts in the call exactly as an expression whose text is
    the string with each [??] turned into [?] and which has no values. *)
Theorem group_string_marks (sep s : str) (pre post : list Any) :
  (contains (replace_all s dqm tmpS) qm = true ->
   (exists m, Group sep (pre ++ AString s :: post) = Panic m) /\
   (Forall (fun y => exists e, intfToExpr y = Ret e) pre ->
    Group sep (pre ++ AString s :: post)
    = Panic (lit "String value without parameters: " ++ replace_all s dqm tmpS))) /\
  (contains (replace_all s dqm tmpS) qm = false -> index tmpS s = None ->
   Group sep (pre ++ AString s :: post) = Group sep (pre ++ AExpr (replace_all s dqm qm) [] :: post)).
Proof.
  assert (Hlen : forall x y : Any, length (pre ++ x :: post) = length (pre ++ y :: post))
    by (intros; rewrite !length_app; reflexivity).
  split.
  - intros C.
    assert (Hx : intfToExpr (AString s)
                 = Panic (lit "String value without parameters: " ++ replace_all s dqm tmpS))
      by (cbn [intfToExpr]; rewrite C; reflexivity).
    split.
    + destruct (group_loop_panic_any pre post _ _ Hx) as [m E].
      exists m. unfold Group. rewrite E. reflexivity.
    + intros Hpre. unfold Group. rewrite (group_loop_app pre _ post _ Hpre Hx). reflexivity.
  - intros C HS.
    assert (Hx : intfToExpr (AString s) = intfToExpr (AExpr (replace_all s dqm qm) [])).
    { cbn [intfToExpr]. rewrite C.
      rewrite (replace_all_compose s dqm tmpS qm (length tmpS));
        [reflexivity | discriminate | split; [vm_compute; lia | lia] | exact tmpS_period_free |].
      rewrite firstn_all. exact HS. }
    unfold Group. rewrite (group_loop_subst pre post _ _ Hx), (Hlen (AString s) (AExpr (replace_all s dqm qm) [])).
    reflexivity.
Qed.

Lemma group_string_marks_witness :
  And [AExpr (lit "x = ?") [AInt 1]; AString (lit "a ? b")]
    = Panic (lit "String value without parameters: " ++ replace_all (lit "a ? b") dqm tmpS) /\
  And [AExpr (lit "x = ?") [AInt 1]; AString (lit "a ?? b")]
    = And [AExpr (lit "x = ?") [AInt 1]; AExpr (lit "a ? b") []].
Proof.
  assert (H0 : contains (replace_all (lit "a ? b") dqm tmpS) qm = true) by (vm_compute; reflexivity).
  assert (H1 : contains (replace_all (lit "a ?? b") dqm tmpS) qm = false) by (vm_compute; reflexivity).
  assert (H2 : index tmpS (lit "a ?? b") = None) by (vm_compute; reflexivity).
  assert (Hpre : Forall (fun y => exists e, intfToExpr y = Ret e) [AExpr (lit "x = ?") [AInt 1]])
    by (constructor; [eexists; reflexivity | constructor]).
  split.
  - exact (proj2 (proj1 (group_string_marks (lit " AND ") (lit "a ? b")
                           [AExpr (lit "x = ?") [AInt 1]] []) H0) Hpre).
  - unfold And. etransitivity;
      [exact (proj2 (group_string_marks (lit " AND ") (lit "a ?? b")
                       [AExpr (lit "x = ?") [AInt 1]] []) H1 H2)|].
    vm_compute. reflexivity.
Defined.

(** C10: a nil [*Query] argument of makePart replaces its [?] by one
    internal placeholder, binds nil and adds no error; with a template of
    one placeholder the fragment has no error at all. *)
Theorem nil_query_is_null (t : str) :
  convertArg t (AQuery None) = (replace_first t qm paramPh, [ANil], []) /\
  Params (makePart t [AQuery None]) = [ANil] /\
  (lone_marks t = 1 -> Errs (makePart t [AQuery None]) = []).
Proof.
  split; [reflexivity|]. unfold makePart. cbn [fold_left makePart_step convertArg app]. split.
  - destruct (checkParamCounts _ _ _); reflexivity.
  - intros H1. unfold lone_marks in H1. unfold checkParamCounts.
    assert (C : count (replace_first (replace_all t dqm tempPh) qm paramPh) qm = 0).
    { apply count_zero_index, occ_zero_index. rewrite replace_first_occ_qm. lia. }
    rewrite C. cbn [Nat.ltb Nat.leb length].
    assert (P : count (replace_first (replace_all t dqm tempPh) qm paramPh) paramPh <> 0).
    { intros P. apply count_zero_index in P. unfold replace_first in P.
      destruct (index qm (replace_all t dqm tempPh)) as [k|] eqn:E.
      - exact (index_inserted paramPh _ _ ltac:(discriminate) P).
      - apply occ_zero_index in E. lia. }
    destruct (count _ paramPh) as [|n]; [congruence|]. reflexivity.
Qed.

Lemma nil_query_is_null_witness :
  lone_marks (lit "id = ?") = 1 /\ Errs (makePart (lit "id = ?") [AQuery None]) = [].
Proof.
  assert (H : lone_marks (lit "id = ?") = 1) by (vm_compute; reflexivity).
  split; [exact H | exact (proj2 (proj2 (nil_query_is_null (lit "id = ?"))) H)].
Defined.

(** * Further properties of the code *)

(** X1: scanReplace on an empty statement returns the empty text and no error, whatever the marker and the callback (the split function is never given data). *)
Theorem scanReplace_empty_stmt (replace : str) (fn : replaceFn) :
  scanReplace [] replace fn = Ret ([], None).
Proof. reflexivity. Qed.

(** X2: scanReplace consults its callback only for the indices [0 .. count-1] of the markers present: any callback that agrees with [g] there gives the text with the markers replaced by [g 0], [g 1], ... and no error. *)
Theorem scanReplace_fn_agree (s ph : str) (fn : replaceFn) (g : nat -> str) :
  ph <> [] -> segments_fit ph s = true ->
  (forall j, j < count s ph -> fn j = Ret (g j)) ->
  scanReplace s ph fn = Ret (replace_occ ph g s, None).
Proof.
  intros Hph Hf Hfn. rewrite (scanReplace_go s ph fn Hph Hf).
  rewrite (replace_occ_go_agree ph fn g Hph (S (length s))); [reflexivity | lia |].
  intros j Hj. apply Hfn. lia.
Qed.

Lemma scanReplace_fn_agree_witness :
  ((qm <> [] /\ segments_fit qm (lit "a?b?c") = true) /\
   (forall j, j < count (lit "a?b?c") qm -> index_raws [lit "1"; lit "2"] j = Ret (nth j [lit "1"; lit "2"] []))) /\
  scanReplace (lit "a?b?c") qm (index_raws [lit "1"; lit "2"])
  = Ret (replace_occ qm (fun j => nth j [lit "1"; lit "2"] []) (lit "a?b?c"), None).
Proof.
  assert (H1 : qm <> [] /\ segments_fit qm (lit "a?b?c") = true)
    by (split; [discriminate | vm_compute; reflexivity]).
  assert (H2 : forall j, j < count (lit "a?b?c") qm ->
               index_raws [lit "1"; lit "2"] j = Ret (nth j [lit "1"; lit "2"] [])).
  { intros j Hj. vm_compute in Hj. destruct j as [|[|j]]; [reflexivity | reflexivity | lia]. }
  split; [split; assumption|].
  exact (scanReplace_fn_agree _ _ _ _ (proj1 H1) (proj2 H1) H2).
Defined.

(** X3: if the callback panics at index [p] (and returns at every smaller index) and the text has more than [p] markers, scanReplace panics with the callback's message. *)
Theorem scanReplace_fn_panic (s ph : str) (fn : replaceFn) (p : nat) (m : str) :
  ph <> [] -> segments_fit ph s = true ->
  (forall j, j < p -> exists r, fn j = Ret r) -> fn p = Panic m -> p < count s ph ->
  scanReplace s ph fn = Panic m.
Proof.
  intros Hph Hf Hb Hp Hc. rewrite (scanReplace_go s ph fn Hph Hf).
  rewrite (replace_occ_go_panic ph fn p m Hph Hb Hp (S (length s))); [reflexivity | lia | lia].
Qed.

Lemma scanReplace_fn_panic_witness :
  ((qm <> [] /\ segments_fit qm (lit "a?b?c") = true) /\
   (forall j, j < 1 -> exists r, index_raws [lit "1"] j = Ret r) /\
   index_raws [lit "1"] 1 = Panic (lit "runtime error: index out of range [1] with length 1") /\
   1 < count (lit "a?b?c") qm) /\
  scanReplace (lit "a?b?c") qm (index_raws [lit "1"])
  = Panic (lit "runtime error: index out of range [1] with length 1").
Proof.
  assert (H1 : qm <> [] /\ segments_fit qm (lit "a?b?c") = true)
    by (split; [discriminate | vm_compute; reflexivity]).
  assert (H2 : forall j, j < 1 -> exists r, index_raws [lit "1"] j = Ret r).
  { intros j Hj. destruct j as [|j]; [eexists; reflexivity | lia]. }
  assert (H3 : index_raws [lit "1"] 1 = Panic (lit "runtime error: index out of range [1] with length 1"))
    by reflexivity.
  assert (H4 : 1 < count (lit "a?b?c") qm) by (vm_compute; lia).
  split; [exact (conj H1 (conj H2 (conj H3 H4)))|].
  exact (scanReplace_fn_panic _ _ _ 1 _ (proj1 H1) (proj2 H1) H2 H3 H4).
Defined.

(** X4: replaceWithScans over two lists of scans is the first list applied, then the second to its output; the errors are concatenated in order and a panic stops everything. *)
Theorem replaceWithScans_compose (s : str) (ss1 ss2 : list scan) :
  replaceWithScans s (ss1 ++ ss2)
  = match replaceWithScans s ss1 with
    | Panic m => Panic m
    | Ret (o, e1) =>
        match replaceWithScans o ss2 with
        | Panic m => Panic m
        | Ret (r, e2) => Ret (r, e1 ++ e2)
        end
    end.
Proof.
  revert s; induction ss1 as [|sc ss1 IH]; intros s; cbn [app replaceWithScans].
  - destruct (replaceWithScans s ss2) as [[r e2]|m]; reflexivity.
  - destruct (scanReplace s (pattern sc) (sfn sc)) as [[out err]|m]; [|reflexivity].
    rewrite IH. destruct (replaceWithScans out ss1) as [[o e1]|m]; [|reflexivity].
    destruct (replaceWithScans o ss2) as [[r e2]|m]; [|reflexivity].
    rewrite app_assoc. reflexivity.
Qed.

(** X5: the MYSQL and SQL dialects replace every internal placeholder with [?], whatever the parameters, and report no error. *)
Theorem dialectReplace_mysql_markers (sql : str) (params : list Any) :
  segments_fit paramPh sql = true ->
  dialectReplace MYSQL sql params = Ret (replace_occ paramPh (fun _ => qm) sql, []) /\
  dialectReplace SQL sql params = Ret (replace_occ paramPh (fun _ => qm) sql, []).
Proof.
  intros Hf. unfold dialectReplace. cbn [replaceWithScans pattern sfn].
  rewrite (scanReplace_go sql paramPh _ paramPh_nonempty Hf).
  rewrite (replace_occ_go_agree paramPh _ (fun _ => qm) paramPh_nonempty (S (length sql)))
    by (lia || (intros; reflexivity)).
  split; reflexivity.
Qed.

Lemma dialectReplace_mysql_markers_witness :
  segments_fit paramPh (lit "a = xX_PARAM_Xx AND b IN (xX_PARAM_Xx,xX_PARAM_Xx)") = true /\
  (dialectReplace MYSQL (lit "a = xX_PARAM_Xx AND b IN (xX_PARAM_Xx,xX_PARAM_Xx)") [AInt 1; AInt 2; AInt 3]
   = Ret (replace_occ paramPh (fun _ => qm) (lit "a = xX_PARAM_Xx AND b IN (xX_PARAM_Xx,xX_PARAM_Xx)"), []) /\
   dialectReplace SQL (lit "a = xX_PARAM_Xx AND b IN (xX_PARAM_Xx,xX_PARAM_Xx)") [AInt 1; AInt 2; AInt 3]
   = Ret (replace_occ paramPh (fun _ => qm) (lit "a = xX_PARAM_Xx AND b IN (xX_PARAM_Xx,xX_PARAM_Xx)"), [])).
Proof.
  assert (H : segments_fit paramPh (lit "a = xX_PARAM_Xx AND b IN (xX_PARAM_Xx,xX_PARAM_Xx)") = true)
    by (vm_compute; reflexivity).
  split; [exact H|]. exact (dialectReplace_mysql_markers _ _ H).
Defined.

(** X6: in the RAW dialect, when every parameter converts and there are no more placeholders than parameters, the [i]-th placeholder is replaced by the literal of the [i]-th parameter; extra parameters are ignored. *)
Theorem dialectReplace_raw_inlines (sql : str) (params : list Any) (raws : list str) :
  raws_of params = inl raws ->
  count sql paramPh <= length params ->
  segments_fit paramPh sql = true ->
  dialectReplace RAW sql params = Ret (replace_occ paramPh (fun i => nth i raws []) sql, []).
Proof.
  intros Hr Hc Hf. unfold dialectReplace. rewrite Hr. cbn [replaceWithScans pattern sfn].
  rewrite (scanReplace_go sql paramPh _ paramPh_nonempty Hf).
  rewrite (replace_occ_go_agree paramPh _ (fun i => nth i raws []) paramPh_nonempty (S (length sql)))
    by (lia || (intros j Hj; unfold index_raws;
                assert (j < length raws) by (rewrite (raws_of_length _ _ Hr); lia);
                rewrite (nth_error_nth' raws [] H); reflexivity)).
  reflexivity.
Qed.

Lemma dialectReplace_raw_inlines_witness :
  (raws_of [AInt 7; AString (lit "bob")] = inl [lit "7"; lit "'bob'"] /\
   count (lit "id = xX_PARAM_Xx AND name = xX_PARAM_Xx") paramPh <= length [AInt 7; AString (lit "bob")] /\
   segments_fit paramPh (lit "id = xX_PARAM_Xx AND name = xX_PARAM_Xx") = true) /\
  dialectReplace RAW (lit "id = xX_PARAM_Xx AND name = xX_PARAM_Xx") [AInt 7; AString (lit "bob")]
  = Ret (replace_occ paramPh (fun i => nth i [lit "7"; lit "'bob'"] [])
           (lit "id = xX_PARAM_Xx AND name = xX_PARAM_Xx"), []).
Proof.
  assert (H1 : raws_of [AInt 7; AString (lit "bob")] = inl [lit "7"; lit "'bob'"]) by reflexivity.
  assert (H2 : count (lit "id = xX_PARAM_Xx AND name = xX_PARAM_Xx") paramPh
               <= length [AInt 7; AString (lit "bob")]) by (vm_compute; lia).
  assert (H3 : segments_fit paramPh (lit "id = xX_PARAM_Xx AND name = xX_PARAM_Xx") = true)
    by (vm_compute; reflexivity).
  split; [exact (conj H1 (conj H2 H3))|].
  exact (dialectReplace_raw_inlines _ _ _ H1 H2 H3).
Defined.



(** X8: the RAW dialect inlines a string parameter between single quotes without escaping it: quotes inside the string are copied as they are. *)
Theorem dialectReplace_raw_string_unescaped (s : str) :
  dialectReplace RAW paramPh [AString s] = Ret (lit "'" ++ s ++ lit "'", []).
Proof.
  unfold dialectReplace. cbn [raws_of paramToRaw]. cbn [replaceWithScans pattern sfn].
  rewrite (scanReplace_go paramPh paramPh _ paramPh_nonempty) by (vm_compute; reflexivity).
  rewrite (RG_some paramPh _ paramPh_nonempty 0 paramPh 0 eq_refl).
  replace (skipn (0 + length paramPh) paramPh) with (@nil ascii) by reflexivity.
  rewrite (RG_none paramPh _ 1 [] eq_refl). cbn [index_raws nth_error firstn errs_of app].
  rewrite app_nil_r. reflexivity.
Qed.

(** X9: for a template with as many [?] as integer arguments and without [??], the sentinel XXX___XXX or the text xX_PARAM_X, makePart reports no error, keeps the arguments in order, and the MYSQL dialect turns its text back into the template. *)
Theorem makePart_mysql_round_trip (t : str) (zs : list Z) :
  contains t dqm = false -> contains t tempPh = false -> contains t (lit "xX_PARAM_X") = false ->
  count t qm = length zs -> length t + 10 * length zs < maxTokenSize ->
  Errs (makePart t (map AInt zs)) = [] /\
  Params (makePart t (map AInt zs)) = map AInt zs /\
  dialectReplace MYSQL (Text (makePart t (map AInt zs))) (Params (makePart t (map AInt zs)))
  = Ret (t, []).
Proof.
  intros Hd Ht Hp Hc Hl.
  rewrite (count_qm (S (length t))) in Hc by lia.
  rewrite (makePart_marks t zs Hd Ht Hp Hc). cbn [Errs Params Text].
  split; [reflexivity|]. split; [reflexivity|].
  apply contains_index in Hp.
  destruct (rep_q_marks (length zs) t 0 (fun _ => qm) Hc Hp) as (HR & _ & HL & _ & _).
  unfold dialectReplace. cbn [replaceWithScans pattern sfn].
  rewrite (scanReplace_go _ paramPh _ paramPh_nonempty)
    by (apply (fits_short paramPh paramPh_nonempty (S (length (rep_q (length zs) t)))); lia).
  rewrite (replace_occ_go_agree paramPh _ (fun _ => qm) paramPh_nonempty (S (length (rep_q (length zs) t))))
    by (lia || (intros; reflexivity)).
  rewrite HR, (replace_occ_marks_id (S (length t))) by lia. reflexivity.
Qed.

Lemma makePart_mysql_round_trip_witness :
  (contains (lit "a = ? AND b IN (?)") dqm = false /\
   contains (lit "a = ? AND b IN (?)") tempPh = false /\
   contains (lit "a = ? AND b IN (?)") (lit "xX_PARAM_X") = false /\
   count (lit "a = ? AND b IN (?)") qm = length [1%Z; 2%Z] /\
   length (lit "a = ? AND b IN (?)") + 10 * length [1%Z; 2%Z] < maxTokenSize) /\
  (Errs (makePart (lit "a = ? AND b IN (?)") (map AInt [1%Z; 2%Z])) = [] /\
   Params (makePart (lit "a = ? AND b IN (?)") (map AInt [1%Z; 2%Z])) = map AInt [1%Z; 2%Z] /\
   dialectReplace MYSQL (Text (makePart (lit "a = ? AND b IN (?)") (map AInt [1%Z; 2%Z])))
     (Params (makePart (lit "a = ? AND b IN (?)") (map AInt [1%Z; 2%Z])))
   = Ret (lit "a = ? AND b IN (?)", [])).
Proof.
  assert (H1 : contains (lit "a = ? AND b IN (?)") dqm = false) by reflexivity.
  assert (H2 : contains (lit "a = ? AND b IN (?)") tempPh = false) by reflexivity.
  assert (H3 : contains (lit "a = ? AND b IN (?)") (lit "xX_PARAM_X") = false) by reflexivity.
  assert (H4 : count (lit "a = ? AND b IN (?)") qm = length [1%Z; 2%Z]) by reflexivity.
  assert (H5 : length (lit "a = ? AND b IN (?)") + 10 * length [1%Z; 2%Z] < maxTokenSize)
    by (apply Nat.ltb_lt; vm_compute; reflexivity).
  split; [exact (conj H1 (conj H2 (conj H3 (conj H4 H5))))|].
  exact (makePart_mysql_round_trip _ _ H1 H2 H3 H4 H5).
Defined.

(** X10: under the same conditions, the PGSQL dialect turns makePart's text into the template with its [i]-th [?] replaced by [$(i+1)]. *)
Theorem makePart_pgsql_numbers_marks (t : str) (zs : list Z) :
  contains t dqm = false -> contains t tempPh = false -> contains t (lit "xX_PARAM_X") = false ->
  count t qm = length zs -> length t + 10 * length zs < maxTokenSize ->
  Errs (makePart t (map AInt zs)) = [] /\
  Params (makePart t (map AInt zs)) = map AInt zs /\
  dialectReplace PGSQL (Text (makePart t (map AInt zs))) (Params (makePart t (map AInt zs)))
  = Ret (replace_occ qm dollar t, []).
Proof.
  intros Hd Ht Hp Hc Hl.
  rewrite (count_qm (S (length t))) in Hc by lia.
  rewrite (makePart_marks t zs Hd Ht Hp Hc). cbn [Errs Params Text].
  split; [reflexivity|]. split; [reflexivity|].
  apply contains_index in Hp.
  destruct (rep_q_marks (length zs) t 0 dollar Hc Hp) as (HR & _ & HL & _ & HQ).
  set (s := rep_q (length zs) t) in *.
  assert (Hds : index dqm s = None).
  { apply (index_none_ext qm qm s). apply occ_zero_index, HQ. }
  unfold dialectReplace. cbn [replaceWithScans pattern sfn].
  rewrite (scanReplace_go s dqm _ ltac:(discriminate))
    by (apply (fits_short dqm ltac:(discriminate) (S (length s))); lia).
  rewrite (RG_none dqm _ 0 s Hds).
  rewrite (scanReplace_go s paramPh _ paramPh_nonempty)
    by (apply (fits_short paramPh paramPh_nonempty (S (length s))); lia).
  rewrite (replace_occ_go_agree paramPh _ dollar paramPh_nonempty (S (length s)))
    by (lia || (intros; reflexivity)).
  rewrite HR. reflexivity.
Qed.

Lemma makePart_pgsql_numbers_marks_witness :
  (contains (lit "a = ? AND b = ?") dqm = false /\
   contains (lit "a = ? AND b = ?") tempPh = false /\
   contains (lit "a = ? AND b = ?") (lit "xX_PARAM_X") = false /\
   count (lit "a = ? AND b = ?") qm = length [1%Z; 2%Z] /\
   length (lit "a = ? AND b = ?") + 10 * length [1%Z; 2%Z] < maxTokenSize) /\
  (Errs (makePart (lit "a = ? AND b = ?") (map AInt [1%Z; 2%Z])) = [] /\
   Params (makePart (lit "a = ? AND b = ?") (map AInt [1%Z; 2%Z])) = map AInt [1%Z; 2%Z] /\
   dialectReplace PGSQL (Text (makePart (lit "a = ? AND b = ?") (map AInt [1%Z; 2%Z])))
     (Params (makePart (lit "a = ? AND b = ?") (map AInt [1%Z; 2%Z])))
   = Ret (replace_occ qm dollar (lit "a = ? AND b = ?"), [])) /\
  replace_occ qm dollar (lit "a = ? AND b = ?") = lit "a = $1 AND b = $2".
Proof.
  assert (H1 : contains (lit "a = ? AND b = ?") dqm = false) by reflexivity.
  assert (H2 : contains (lit "a = ? AND b = ?") tempPh = false) by reflexivity.
  assert (H3 : contains (lit "a = ? AND b = ?") (lit "xX_PARAM_X") = false) by reflexivity.
  assert (H4 : count (lit "a = ? AND b = ?") qm = length [1%Z; 2%Z]) by reflexivity.
  assert (H5 : length (lit "a = ? AND b = ?") + 10 * length [1%Z; 2%Z] < maxTokenSize)
    by (apply Nat.ltb_lt; vm_compute; reflexivity).
  split; [exact (conj H1 (conj H2 (conj H3 (conj H4 H5))))|].
  split; [exact (makePart_pgsql_numbers_marks _ _ H1 H2 H3 H4 H5) | vm_compute; reflexivity].
Defined.

(** X11: makePart with no arguments on a text without [?] reports no error and returns the text with every XXX___XXX turned into [??]. *)
Theorem makePart_no_args (t : str) :
  contains t qm = false -> makePart t [] = mkQueryPart (replace_all t tempPh dqm) [] [].
Proof.
  intros Hq. apply contains_index in Hq.
  assert (Hd : index dqm t = None) by exact (index_none_ext qm qm t Hq).
  unfold makePart. rewrite (replace_all_eq t dqm tempPh ltac:(discriminate)), Hd.
  cbn [fold_left]. unfold checkParamCounts.
  rewrite (proj2 (count_zero_index t qm) Hq). reflexivity.
Qed.

Lemma makePart_no_args_witness :
  contains (lit "note = 'XXX___XXX'") qm = false /\
  makePart (lit "note = 'XXX___XXX'") []
  = mkQueryPart (replace_all (lit "note = 'XXX___XXX'") tempPh dqm) [] [] /\
  replace_all (lit "note = 'XXX___XXX'") tempPh dqm = lit "note = '??'".
Proof.
  assert (H : contains (lit "note = 'XXX___XXX'") qm = false) by reflexivity.
  split; [exact H|]. split; [exact (makePart_no_args _ H) | vm_compute; reflexivity].
Defined.

(** X12: the parameter list of makePart depends only on the arguments, never on the template. *)
Theorem makePart_params_text_independent (t1 t2 : str) (args : list Any) :
  Params (makePart t1 args) = Params (makePart t2 args).
Proof.
  unfold makePart.
  destruct (fold_makePart_text_independent args (replace_all t1 dqm tempPh) (replace_all t2 dqm tempPh) [] [])
    as [Hp _].
  destruct (fold_left makePart_step args (replace_all t1 dqm tempPh, [], [])) as [[x1 p1] e1].
  destruct (fold_left makePart_step args (replace_all t2 dqm tempPh, [], [])) as [[x2 p2] e2].
  exact Hp.
Qed.

(** X13: when Valf returns, its value list depends only on the arguments, never on the template. *)
Theorem valf_values_text_independent (t1 t2 : str) (vals : list Any) (e1 e2 : Expr) :
  Valf t1 vals = Ret e1 -> Valf t2 vals = Ret e2 -> V e1 = V e2.
Proof.
  unfold Valf. intros H1 H2.
  pose proof (fold_valf_text_independent vals (replace_all t1 dqm tmpQ) (replace_all t2 dqm tmpQ) []) as Hp.
  destruct (fold_left valf_step vals (replace_all t1 dqm tmpQ, [])) as [x1 p1].
  destruct (fold_left valf_step vals (replace_all t2 dqm tmpQ, [])) as [x2 p2].
  cbn [snd] in Hp. subst p2.
  destruct (contains x1 qm); [discriminate|]. destruct (contains x2 qm); [discriminate|].
  injection H1 as <-. injection H2 as <-. reflexivity.
Qed.

Lemma valf_values_text_independent_witness :
  (Valf (lit "a = ?") [AInt 1] = Ret (mkExpr (lit "a = xX_PARAM_Xx") [AInt 1]) /\
   Valf (lit "b IN (?)") [AInt 1] = Ret (mkExpr (lit "b IN (xX_PARAM_Xx)") [AInt 1])) /\
  V (mkExpr (lit "a = xX_PARAM_Xx") [AInt 1]) = V (mkExpr (lit "b IN (xX_PARAM_Xx)") [AInt 1]).
Proof.
  assert (H1 : Valf (lit "a = ?") [AInt 1] = Ret (mkExpr (lit "a = xX_PARAM_Xx") [AInt 1]))
    by (vm_compute; reflexivity).
  assert (H2 : Valf (lit "b IN (?)") [AInt 1] = Ret (mkExpr (lit "b IN (xX_PARAM_Xx)") [AInt 1]))
    by (vm_compute; reflexivity).
  split; [exact (conj H1 H2)|]. exact (valf_values_text_independent _ _ _ _ _ H1 H2).
Defined.

(** X14: Valf with no arguments on a text without [?] returns the text with every 1xXX1_Y_2XXx2 turned into [?], and no values. *)
Theorem valf_no_args (e : str) :
  contains e qm = false -> Valf e [] = Ret (mkExpr (replace_all e tmpQ qm) []).
Proof.
  intros Hq. apply contains_index in Hq.
  assert (Hd : index dqm e = None) by exact (index_none_ext qm qm e Hq).
  unfold Valf. rewrite (replace_all_eq e dqm tmpQ ltac:(discriminate)), Hd.
  cbn [fold_left]. unfold contains at 1. rewrite Hq. reflexivity.
Qed.

Lemma valf_no_args_witness :
  contains (lit "code = '1xXX1_Y_2XXx2'") qm = false /\
  Valf (lit "code = '1xXX1_Y_2XXx2'") [] = Ret (mkExpr (replace_all (lit "code = '1xXX1_Y_2XXx2'") tmpQ qm) []) /\
  replace_all (lit "code = '1xXX1_Y_2XXx2'") tmpQ qm = lit "code = '?'".
Proof.
  assert (H : contains (lit "code = '1xXX1_Y_2XXx2'") qm = false) by reflexivity.
  split; [exact H|]. split; [exact (valf_no_args _ H) | vm_compute; reflexivity].
Defined.

(** X15: intfToExpr on a string without [?] returns the string with every xXxXy__ turned into [?], and no values. *)
Theorem intfToExpr_plain_string (v : str) :
  contains v qm = false -> intfToExpr (AString v) = Ret (mkExpr (replace_all v tmpS qm) []).
Proof.
  intros Hq. apply contains_index in Hq.
  assert (Hd : index dqm v = None) by exact (index_none_ext qm qm v Hq).
  cbn [intfToExpr]. rewrite (replace_all_eq v dqm tmpS ltac:(discriminate)), Hd.
  unfold contains at 1. rewrite Hq. reflexivity.
Qed.

Lemma intfToExpr_plain_string_witness :
  contains (lit "tag = 'xXxXy__'") qm = false /\
  intfToExpr (AString (lit "tag = 'xXxXy__'")) = Ret (mkExpr (replace_all (lit "tag = 'xXxXy__'") tmpS qm) []) /\
  replace_all (lit "tag = 'xXxXy__'") tmpS qm = lit "tag = '?'".
Proof.
  assert (H : contains (lit "tag = 'xXxXy__'") qm = false) by reflexivity.
  split; [exact H|]. split; [exact (intfToExpr_plain_string _ H) | vm_compute; reflexivity].
Defined.

(** X16: Group over Expr values never panics: the texts are joined with the separator (in parentheses when there are two or more) and the values concatenated in order. *)
Theorem group_exprs_never_panic (sep : str) (es : list Expr) :
  Group sep (map (fun e => AExpr (F e) (V e)) es)
  = Ret (mkExpr (if 1 <? length es then lit "(" ++ join (map F es) sep ++ lit ")" else join (map F es) sep)
                (flat_map V es)).
Proof.
  unfold Group. rewrite group_loop_exprs, length_map.
  destruct (1 <? length es); [reflexivity|]. cbn [app]. rewrite app_nil_r. reflexivity.
Qed.

(** X17: Group panics with the message of the first argument intfToExpr rejects, whatever follows it. *)
Theorem group_first_failure (sep : str) (pre : list Any) (x : Any) (post : list Any) (m : str) :
  Forall (fun y => exists e, intfToExpr y = Ret e) pre -> intfToExpr x = Panic m ->
  Group sep (pre ++ x :: post) = Panic m.
Proof. intros Hpre Hx. unfold Group. rewrite (group_loop_app pre x post m Hpre Hx). reflexivity. Qed.

Lemma group_first_failure_witness :
  (Forall (fun y => exists e, intfToExpr y = Ret e) [AString (lit "a = 1")] /\
   intfToExpr (AInt 5) = Panic (lit "Unsupported expression type: int")) /\
  Group (lit " AND ") ([AString (lit "a = 1")] ++ AInt 5 :: [AString (lit "b = ?")])
  = Panic (lit "Unsupported expression type: int").
Proof.
  assert (H1 : Forall (fun y => exists e, intfToExpr y = Ret e) [AString (lit "a = 1")])
    by (constructor; [eexists; vm_compute; reflexivity | constructor]).
  assert (H2 : intfToExpr (AInt 5) = Panic (lit "Unsupported expression type: int")) by reflexivity.
  split; [exact (conj H1 H2)|]. exact (group_first_failure _ _ _ _ _ H1 H2).
Defined.

(** X18: Group is getExprs followed by exprsToSql and the join of the texts. *)
Theorem group_is_getExprs_then_exprsToSql (sep : str) (exprs : list Any) :
  Group sep exprs
  = match getExprs exprs with
    | Panic m => Panic m
    | Ret es =>
        match exprsToSql es with
        | Panic m => Panic m
        | Ret (newFs, newV) =>
            let '(pre, post) := if 1 <? length exprs then (lit "(", lit ")") else ([], []) in
            Ret (mkExpr (pre ++ join newFs sep ++ post) newV)
        end
    end.
Proof.
  unfold Group. rewrite <- getExprs_group_loop.
  destruct (getExprs exprs); reflexivity.
Qed.

(** X19: exprsToSql never panics: it returns the texts of the expressions and their values concatenated in order. *)
Theorem exprsToSql_never_panics (exprs : list Expr) :
  exprsToSql exprs = Ret (map F exprs, flat_map V exprs).
Proof. exact (exprsToSql_ret exprs). Qed.

(** X20: exprGroup joins each group's texts with AND inside parentheses and the groups with OR, followed by one space (nothing for no groups); its values are all the values in order. *)
Theorem exprGroup_or_of_ands (exprs : list (list Expr)) :
  exprGroup exprs =
  (match exprs with
   | [] => []
   | _ => join (map (fun g => lit "(" ++ join (map F g) (lit " AND ") ++ lit ")") exprs) (lit " OR ")
          ++ lit " "
   end,
   flat_map (flat_map V) exprs).
Proof.
  unfold exprGroup. destruct exprs as [|g rest]; [reflexivity|].
  cbn [length Nat.ltb Nat.leb]. rewrite exprGroup_outer_eq by (discriminate || reflexivity).
  reflexivity.
Qed.
